(** * Z2Pack tight-binding model ([z2pack/em/tb/_tb_model.py])

    A shallow embedding of the [Model] class: construction, the cached
    Bloch Hamiltonian ([hamilton] / [_precompute]), [add_hop], and the three
    derived-model transforms ([supercell], [trs], [change_uc]).

    Numbers.  The source computes with NumPy [float64] and [complex128].
    The embedding is parametric in a [Numeric] interface that lists exactly
    the numeric primitives the source calls; statements that need no
    algebraic law hold for any implementation of the interface (floating
    point included), statements that need exact arithmetic say so through
    an explicit law record.  An exact instance over the rationals is used to
    run the definitions on concrete inputs. *)

From Stdlib Require Import ZArith List Bool Lia Arith.
From Stdlib Require Import QArith Qcanon Qround Permutation.
Import ListNotations.
Open Scope Z_scope.

(** ** Three-component vectors ([np.array] of length 3) *)

Definition vec3 (A : Type) : Type := (A * A * A)%type.
Definition mat3 (A : Type) : Type := vec3 (vec3 A).

Definition vmap {A B} (f : A -> B) (v : vec3 A) : vec3 B :=
  let '(x, y, z) := v in (f x, f y, f z).

Definition vmap2 {A B D} (f : A -> B -> D) (u : vec3 A) (v : vec3 B) : vec3 D :=
  let '(x, y, z) := u in let '(x', y', z') := v in (f x x', f y y', f z z').

Definition vany (v : vec3 bool) : bool :=
  let '(x, y, z) := v in x || y || z.

Definition vall (v : vec3 bool) : bool :=
  let '(x, y, z) := v in x && y && z.

(** Integer lattice vectors [G] and their elementwise arithmetic. *)
Definition vadd : vec3 Z -> vec3 Z -> vec3 Z := vmap2 Z.add.
Definition vsub : vec3 Z -> vec3 Z -> vec3 Z := vmap2 Z.sub.
Definition vmul : vec3 Z -> vec3 Z -> vec3 Z := vmap2 Z.mul.
Definition vneg : vec3 Z -> vec3 Z := vmap Z.opp.

(** [all(G2 == G)] *)
Definition veqb (u v : vec3 Z) : bool := vall (vmap2 Z.eqb u v).

(** ** The numeric primitives used by the source *)

Class Numeric : Type := {
  (** [float64]: on-site energies, positions, unit cells *)
  F : Type;
  (** [complex128]: hopping amplitudes and Hamiltonian entries *)
  C : Type;
  (** the k-point handed to [hamilton] *)
  K : Type;
  F0 : F;
  F1 : F;
  Fadd : F -> F -> F;
  Fmul : F -> F -> F;
  Fdiv : F -> F -> F;
  F_of_Z : Z -> F;
  (** [np.floor(x)] converted to [int] *)
  Ffloor : F -> Z;
  (** [x % 1] *)
  Fmod1 : F -> F;
  (** [x == 1] *)
  Feq1 : F -> bool;
  (** [scipy.linalg.det] and [scipy.linalg.solve] on 3x3 systems *)
  la_det : mat3 F -> F;
  la_solve : mat3 F -> vec3 F -> vec3 F;
  C0 : C;
  Cadd : C -> C -> C;
  Cmul : C -> C -> C;
  (** [t.conjugate()] *)
  Cconj : C -> C;
  (** conversion performed by [np.array(..., dtype=complex)] *)
  C_of_F : F -> C;
  (** [np.exp(2j * np.pi * np.dot(G, k))] *)
  phase : vec3 Z -> K -> C;
  (** [list(set(l))]: the iteration order of a Python set is unspecified *)
  set_order : list (vec3 Z) -> list (vec3 Z)
}.

(** What is known of [list(set(l))] whatever the order: no repetition, same
    members. *)
Record SetOrderLaws (N : Numeric) : Prop := {
  set_order_NoDup : forall l, NoDup (set_order l);
  set_order_In : forall l g, In g (set_order l) <-> In g l
}.

Section Embedding.

Context {Num : Numeric}.

(** ** Python exceptions *)

Inductive ValueErrorMsg : Type :=
| invalid_pos            (* 'invalid argument for pos: must be either None or of the same length ...' *)
| det_not_one (d : F)    (* 'The determinant of uc is {0}, but should be 1' *)
| G_not_found            (* 'G not found in G_list. This is a bug.' *)
| cannot_broadcast.      (* NumPy: operands could not be broadcast together *)

Inductive PyError : Type :=
| ValueError (msg : ValueErrorMsg)
| IndexError
| AttributeError.

Definition result (A : Type) : Type := (PyError + A)%type.

Definition ret {A} (a : A) : result A := inr a.
Definition raise {A} (e : PyError) : result A := inl e.
Definition bind {A B} (r : result A) (k : A -> result B) : result B :=
  match r with
  | inl e => inl e
  | inr a => k a
  end.

Notation "x <- r ;; k" := (bind r (fun x => k))
  (at level 61, r at next level, right associativity).

(** Running a fallible loop body over a list, first exception wins. *)
Fixpoint foldM {A S} (f : S -> A -> result S) (l : list A) (s : S) : result S :=
  match l with
  | [] => ret s
  | a :: l' => s' <- f s a ;; foldM f l' s'
  end.

(** ** Data model *)

(** A hopping term [[i0, i1, G, t]]. *)
Definition Hop : Type := (Z * Z * vec3 Z * C)%type.

Definition hop_G (h : Hop) : vec3 Z := let '(_, _, G, _) := h in G.

Definition Matrix : Type := list (list C).

(** The attributes written by [_precompute]; absent until it has run. *)
Record Cache : Type := mkCache {
  _hamilton_diag : Matrix;
  _G_list : list (vec3 Z);
  _hamilton_parts : list Matrix
}.

Record Model : Type := mkModel {
  _uc : option (mat3 F);
  _on_site : list F;
  _pos : list (vec3 F);
  _hop : list Hop;
  _occ : Z;
  _unchanged : bool;
  _cache : option Cache
}.

(** [Model.__setattr__]: assigning [_hop] or [_on_site] clears [_unchanged]. *)
Definition setattr_hop (m : Model) (v : list Hop) : Model :=
  mkModel (_uc m) (_on_site m) (_pos m) v (_occ m) false (_cache m).

Definition setattr_on_site (m : Model) (v : list F) : Model :=
  mkModel (_uc m) v (_pos m) (_hop m) (_occ m) false (_cache m).

(** ** Construction *)

Definition conj_hop (h : Hop) : Hop :=
  let '(i0, i1, G, t) := h in (i1, i0, vneg G, Cconj t).

Definition __init__ (on_site : list F) (hop : list Hop)
    (pos : option (list (vec3 F))) (occ : option Z) (add_cc : bool)
    (uc : option (mat3 F)) : result Model :=
  pos' <- match pos with
          | None => ret (map (fun _ => (F0, F0, F0)) on_site)
          | Some ps =>
              if Nat.eqb (length ps) (length on_site) then ret ps
              else raise (ValueError invalid_pos)
          end ;;
  let hop0 := map (fun '(i0, i1, G, t) => (i0, i1, G, t)) hop in
  let hop' := if add_cc then hop0 ++ map conj_hop hop else hop0 in
  let occ' := match occ with
              | None => Z.of_nat (length on_site) / 2
              | Some o => o
              end in
  ret (mkModel uc on_site pos' hop' occ' false None).

(** [add_hop] extends the list object in place: no attribute is assigned,
    so [__setattr__] does not run and [_unchanged] keeps its value. *)
Definition add_hop (m : Model) (hop : list Hop) : Model :=
  mkModel (_uc m) (_on_site m) (_pos m) (_hop m ++ hop) (_occ m)
          (_unchanged m) (_cache m).

(** ** Matrices as nested lists *)

Definition mk_matrix (n : nat) (f : nat -> nat -> C) : Matrix :=
  map (fun a => map (fun b => f a b) (seq 0 n)) (seq 0 n).

Definition get (M : Matrix) (a b : nat) : C := nth b (nth a M []) C0.

(** [np.array(np.diag(on_site), dtype=complex)] *)
Definition np_diag (v : list F) : Matrix :=
  mk_matrix (length v)
    (fun a b => if Nat.eqb a b then C_of_F (nth a v F0) else C_of_F F0).

(** [np.zeros_like(M)] *)
Definition zeros_like (M : Matrix) : Matrix := map (map (fun _ => C0)) M.

Fixpoint zip_with {A B D} (f : A -> B -> D) (l : list A) (l' : list B) : list D :=
  match l, l' with
  | a :: l, b :: l' => f a b :: zip_with f l l'
  | _, _ => []
  end.

(** [H += X] and [X * c] on arrays of one shape *)
Definition madd (H X : Matrix) : Matrix := zip_with (zip_with Cadd) H X.
Definition mscale (X : Matrix) (c : C) : Matrix := map (map (fun x => Cmul x c)) X.

(** In-place update of one list cell. *)
Fixpoint upd {A} (n : nat) (f : A -> A) (l : list A) {struct l} : list A :=
  match l, n with
  | [], _ => []
  | a :: l', O => f a :: l'
  | a :: l', S n' => a :: upd n' f l'
  end.

(** Python/NumPy index resolution on an axis of length [n]: negative
    indices count from the end, anything else out of range raises. *)
Definition py_index (n : nat) (i : Z) : option nat :=
  if (0 <=? i) && (i <? Z.of_nat n) then Some (Z.to_nat i)
  else if (- Z.of_nat n <=? i) && (i <? 0) then Some (Z.to_nat (i + Z.of_nat n))
  else None.

(** The inner [for i, G2 in enumerate(self._G_list): if all(G2 == G): ... break]
    loop: the first position holding [G], or [None] for the [else] branch. *)
Fixpoint index_of (G : vec3 Z) (l : list (vec3 Z)) : option nat :=
  match l with
  | [] => None
  | G2 :: l' => if veqb G2 G then Some O
                else match index_of G l' with
                     | Some i => Some (S i)
                     | None => None
                     end
  end.

(** ** [_precompute] and [hamilton] *)

(** One round of the outer loop of [_precompute] on orbitals [0..n). *)
Definition accumulate_hop (n : nat) (G_list : list (vec3 Z))
    (parts : list Matrix) (h : Hop) : result (list Matrix) :=
  let '(i0, i1, G, t) := h in
  match index_of G G_list with
  | None => raise (ValueError G_not_found)
  | Some i =>
      match py_index n i0, py_index n i1 with
      | Some a, Some b =>
          ret (upd i (upd a (upd b (fun x => Cadd x t))) parts)
      | _, _ => raise IndexError
      end
  end.

Definition build_cache (on_site : list F) (hop : list Hop) : result Cache :=
  let diag := np_diag on_site in
  let G_list := set_order (map hop_G hop) in
  let parts0 := map (fun _ => zeros_like diag) G_list in
  parts <- foldM (accumulate_hop (length on_site) G_list) hop parts0 ;;
  ret (mkCache diag G_list parts).

(** On an exception [_unchanged] is still [False], so the half-written
    attributes are never read: the next [hamilton] call starts over. *)
Definition _precompute (m : Model) : result Model :=
  c <- build_cache (_on_site m) (_hop m) ;;
  ret (mkModel (_uc m) (_on_site m) (_pos m) (_hop m) (_occ m) true (Some c)).

(** The summation loop of [hamilton]; [_G_list] and [_hamilton_parts] have
    the same length whenever [_precompute] has written them. *)
Definition bloch_sum (c : Cache) (k : K) : Matrix :=
  fold_left (fun H '(G, part) => madd H (mscale part (phase G k)))
            (combine (_G_list c) (_hamilton_parts c)) (_hamilton_diag c).

Definition hamilton (m : Model) (k : K) : result (Matrix * Model) :=
  m' <- (if _unchanged m then ret m else _precompute m) ;;
  match _cache m' with
  | None => raise AttributeError
  | Some c => ret (bloch_sum c k, m')
  end.

(** ** Helper functions for [supercell] *)

(** [range(n)] *)
Definition range (n : Z) : list Z := map Z.of_nat (seq 0 (Z.to_nat n)).

(** The triple loop [for i in range(nx): for j in range(ny): for k in range(nz)]. *)
Definition cells (dim : vec3 Z) : list (vec3 Z) :=
  let '(nx, ny, nz) := dim in
  flat_map (fun i =>
    flat_map (fun j => map (fun k => (i, j, k)) (range nz)) (range ny))
    (range nx).

Definition out_of_bounds (pos dim : vec3 Z) : bool :=
  vany (vmap2 (fun p d => p >=? d) pos dim).

Definition _pos_to_idx (pos dim : vec3 Z) : result Z :=
  if out_of_bounds pos dim then raise IndexError
  else
    let '(p0, p1, p2) := pos in
    let '(_, d1, d2) := dim in
    ret ((p0 * d1 + p1) * d2 + p2).

Definition Edges : Type := (bool * bool)%type.

Definition _edge_detect_pos (pos dim : vec3 Z) : result (vec3 Edges) :=
  if out_of_bounds pos dim then raise IndexError
  else ret (vmap2 (fun p d => (p =? 0, p =? d - 1)) pos dim).

(** [full_idx], the closure defined inside [supercell]; [n] is
    [len(self._on_site)]. *)
Definition full_idx (n : nat) (dim uc_pos : vec3 Z) (orbital_idx : Z) : result Z :=
  uc_idx <- _pos_to_idx uc_pos dim ;;
  ret (uc_idx * Z.of_nat n + orbital_idx).

(** [[(p < 0) or (p >= d) for p, d in zip(full_uc1_pos, dim)]] *)
Definition outside_supercell (full_uc1_pos dim : vec3 Z) : vec3 bool :=
  vmap2 (fun p d => (p <? 0) || (p >=? d)) full_uc1_pos dim.

(** [any([not per and outside for ...])] *)
Definition hop_is_cut (periodic : vec3 bool) (full_uc1_pos dim : vec3 Z) : bool :=
  vany (vmap2 (fun per outside => negb per && outside) periodic
              (outside_supercell full_uc1_pos dim)).

(** [np.array(full_uc1_pos / dim, dtype=int)]: true division, then the
    conversion to [int], which drops the fractional part (rounds toward
    zero).  For operands below 2^53 the float quotient never reaches the next
    integer, so the result is the truncated integer quotient. *)
Definition supercell_new_G (full_uc1_pos dim : vec3 Z) : vec3 Z :=
  vmap2 Z.quot full_uc1_pos dim.

(** [full_uc1_pos % dim]: NumPy's remainder has the sign of the divisor. *)
Definition supercell_uc1_pos (full_uc1_pos dim : vec3 Z) : vec3 Z :=
  vmap2 Z.modulo full_uc1_pos dim.

(** The body of the loop over [self._hop] for the sub-cell [uc0_pos]:
    [None] when the term is cut ([continue]). *)
Definition supercell_hop (n : nat) (dim : vec3 Z) (periodic : vec3 bool)
    (uc0_pos : vec3 Z) (h : Hop) : result (option Hop) :=
  let '(i0, i1, G, t) := h in
  new_i0 <- full_idx n dim uc0_pos i0 ;;
  let full_uc1_pos := vadd uc0_pos G in
  if hop_is_cut periodic full_uc1_pos dim then ret None
  else
    let new_G := supercell_new_G full_uc1_pos dim in
    let uc1_pos := supercell_uc1_pos full_uc1_pos dim in
    new_i1 <- full_idx n dim uc1_pos i1 ;;
    ret (Some (new_i0, new_i1, new_G, t)).

Definition supercell_hops (n : nat) (dim : vec3 Z) (periodic : vec3 bool)
    (hop : list Hop) : result (list Hop) :=
  foldM (fun new_hop uc0_pos =>
           foldM (fun new_hop h =>
                    r <- supercell_hop n dim periodic uc0_pos h ;;
                    ret (match r with
                         | Some h' => new_hop ++ [h']
                         | None => new_hop
                         end))
                 hop new_hop)
        (cells dim) [].

(** [a += b] on one-dimensional arrays: [b] must have the length of [a], or
    length one (broadcast). *)
Definition iadd (a b : list F) : result (list F) :=
  if Nat.eqb (length b) (length a) then ret (zip_with Fadd a b)
  else match b with
       | [x] => ret (map (fun y => Fadd y x) a)
       | _ => raise (ValueError cannot_broadcast)
       end.

Definition Passivation : Type := Edges -> Edges -> Edges -> list F.

Definition supercell_on_site (on_site : list F) (dim : vec3 Z)
    (passivation : Passivation) : result (list F) :=
  foldM (fun new_on_site c =>
           e <- _edge_detect_pos c dim ;;
           let '(ex, ey, ez) := e in
           tmp_on_site <- iadd on_site (passivation ex ey ez) ;;
           ret (new_on_site ++ tmp_on_site))
        (cells dim) [].

Definition supercell_pos (pos : list (vec3 F)) (dim : vec3 Z) : list (vec3 F) :=
  let fdim := vmap F_of_Z dim in
  let reduced_pos := map (fun p => vmap2 Fdiv p fdim) pos in
  flat_map (fun c =>
              let tmp_offset := vmap2 Fdiv (vmap F_of_Z c) fdim in
              map (fun p => vmap2 Fadd tmp_offset p) reduced_pos)
           (cells dim).

(** ** Derived models *)

Definition supercell (m : Model) (dim : vec3 Z) (periodic : vec3 bool)
    (passivation : option Passivation) : result Model :=
  let '(d0, d1, d2) := dim in
  let new_occ := (0 + d0 + d1 + d2) * _occ m in
  let new_uc := option_map
                  (vmap (fun row => vmap2 Fmul row (vmap F_of_Z dim))) (_uc m) in
  let new_pos := supercell_pos (_pos m) dim in
  new_hop <- supercell_hops (length (_on_site m)) dim periodic (_hop m) ;;
  let passivation' :=
    match passivation with
    | Some f => f
    | None => fun _ _ _ => repeat F0 (length (_on_site m))
    end in
  new_on_site <- supercell_on_site (_on_site m) dim passivation' ;;
  __init__ new_on_site new_hop (Some new_pos) (Some new_occ) false new_uc.

(** Every [Model] comes out of [__init__], which stores as many positions
    as on-site energies, and no method assigns [_pos] or [_on_site]
    afterwards. *)
Definition class_inv (m : Model) : Prop := length (_pos m) = length (_on_site m).

(** [np.vstack([self._pos, self._pos])] stacks the rows of [_pos] twice.
    [np.vstack] first makes each operand two-dimensional, so the empty list
    [_pos] of a model without orbitals becomes one empty row (shape
    [(1, 0)]) and the stack has shape [(2, 0)]: [len(pos)] is 2 while
    [np.hstack] of the (then empty, see [class_inv]) on-site arrays has
    length 0, and the length test of [__init__] raises. *)
Definition trs (m : Model) : result Model :=
  let new_occ := _occ m * 2 in
  let new_on_site := _on_site m ++ _on_site m in
  let idx_offset := Z.of_nat (length (_on_site m)) in
  let new_hop :=
    _hop m ++ map (fun '(i0, i1, G, t) =>
                     (i1 + idx_offset, i0 + idx_offset, vneg G, t)) (_hop m) in
  match _pos m with
  | [] => raise (ValueError invalid_pos)
  | _ => __init__ new_on_site new_hop (Some (_pos m ++ _pos m)) (Some new_occ)
                  false (_uc m)
  end.

(** [np.dot] of two 3x3 arrays. *)
Definition dot3 (u v : vec3 F) : F :=
  let '(a, b, c) := u in let '(a', b', c') := v in
  Fadd (Fadd (Fmul a a') (Fmul b b')) (Fmul c c').

Definition mat_dot (A B : mat3 F) : mat3 F :=
  let '(b0, b1, b2) := B in
  let col (f : vec3 F -> F) : vec3 F := (f b0, f b1, f b2) in
  let c0 := col (fun r => fst (fst r)) in
  let c1 := col (fun r => snd (fst r)) in
  let c2 := col (fun r => snd r) in
  vmap (fun row => (dot3 row c0, dot3 row c1, dot3 row c2)) A.

(** [l[i]] on a Python list. *)
Definition list_item {A} (l : list A) (i : Z) : result A :=
  match py_index (length l) i with
  | Some n => match nth_error l n with
              | Some a => ret a
              | None => raise IndexError
              end
  | None => raise IndexError
  end.

Fixpoint mapM {A B} (f : A -> result B) (l : list A) : result (list B) :=
  match l with
  | [] => ret []
  | a :: l' => b <- f a ;; bs <- mapM f l' ;; ret (b :: bs)
  end.

Definition change_uc_hop (pos_offset : list (vec3 Z)) (h : Hop) : result Hop :=
  let '(i0, i1, G, t) := h in
  o1 <- list_item pos_offset i1 ;;
  o0 <- list_item pos_offset i0 ;;
  ret (i0, i1, vsub (vadd G o1) o0, t).

Definition change_uc (m : Model) (uc : mat3 F) : result Model :=
  if negb (Feq1 (la_det uc)) then raise (ValueError (det_not_one (la_det uc)))
  else
    let new_uc := option_map (fun old => mat_dot old uc) (_uc m) in
    let full_new_pos := map (la_solve uc) (_pos m) in
    let pos_offset := map (vmap Ffloor) full_new_pos in
    let new_pos := map (vmap Fmod1) full_new_pos in
    new_hop <- mapM (change_uc_hop pos_offset) (_hop m) ;;
    __init__ (_on_site m) new_hop (Some new_pos) (Some (_occ m)) false new_uc.

(** ** Inspection *)

Record Size : Type := mkSize { orbitals : nat; hop : nat; occ : Z }.

Definition size (m : Model) : Size :=
  mkSize (length (_on_site m)) (length (_hop m)) (_occ m).

End Embedding.

Arguments ValueError {Num} msg.
Arguments IndexError {Num}.
Arguments AttributeError {Num}.

(** ** Reference definitions the claims are stated against *)

Section Reference.

Context {Num : Numeric}.

(** What a caller of [hamilton] sees: the matrix or the exception. *)
Definition observe {A S} (r : result (A * S)) : result A :=
  match r with
  | inl e => inl e
  | inr (a, _) => inr a
  end.

(** Orbital indices inside [0, n). *)
Definition hop_in_range (n : nat) (h : Hop) : bool :=
  let '(i0, i1, _, _) := h in
  (0 <=? i0) && (i0 <? Z.of_nat n) && (0 <=? i1) && (i1 <? Z.of_nat n).

(** The cache is either marked invalid or holds what [_precompute] builds
    from the current on-site energies and hopping list. *)
Definition cache_valid (m : Model) : Prop :=
  _unchanged m = true ->
  exists c, _cache m = Some c /\ build_cache (_on_site m) (_hop m) = inr c.

(** The implementation without a cache: rebuild the decomposition from the
    current hopping list on every call. *)
Definition hamilton_rebuild (m : Model) (k : K) : result (Matrix * Model) :=
  match _precompute m with
  | inl e => inl e
  | inr m' => match _cache m' with
              | None => inl AttributeError
              | Some c => inr (bloch_sum c k, m')
              end
  end.

Definition hop_t (h : Hop) : C := let '(_, _, _, t) := h in t.

(** The stored terms whose indices are [(a, b)] and whose [G] is the given
    vector (exact comparison). *)
Definition hop_matches (a b : nat) (G : vec3 Z) (h : Hop) : bool :=
  let '(i0, i1, G', _) := h in
  (i0 =? Z.of_nat a) && (i1 =? Z.of_nat b) && veqb G G'.

(** [M_G]: entry [(a, b)] is [t] summed, in list order, over the stored
    terms [(a, b, G, t)]. *)
Definition M_G (n : nat) (hop : list Hop) (G : vec3 Z) : Matrix :=
  mk_matrix n (fun a b =>
    fold_left Cadd (map hop_t (filter (hop_matches a b G) hop)) C0).

(** [D + sum over the distinct G of M_G * exp(2 pi i G.k)] *)
Definition bloch_spec (on_site : list F) (hop : list Hop) (k : K) : Matrix :=
  fold_left (fun H G => madd H (mscale (M_G (length on_site) hop G) (phase G k)))
            (set_order (map hop_G hop)) (np_diag on_site).

(** [H.conj().T] *)
Definition conj_transpose (H : Matrix) : Matrix :=
  mk_matrix (length H) (fun a b => Cconj (get H b a)).

(** [np.eye(3)] *)
Definition eye3 : mat3 F := ((F1, F0, F0), (F0, F1, F0), (F0, F0, F1)).

(** The mirrored term [trs] adds for a stored term. *)
Definition trs_mirror (n : nat) (h : Hop) : Hop :=
  let '(i0, i1, G, t) := h in (i1 + Z.of_nat n, i0 + Z.of_nat n, vneg G, t).

(** Orbital indices Python accepts on a list of length [n]: [-n <= i < n]. *)
Definition hop_index_valid (n : nat) (h : Hop) : bool :=
  let '(i0, i1, _, _) := h in
  (- Z.of_nat n <=? i0) && (i0 <? Z.of_nat n) &&
  (- Z.of_nat n <=? i1) && (i1 <? Z.of_nat n).

(** Both orbitals of a term exist and sit in the same cell of the lattice
    described by the given cell offsets. *)
Definition hop_same_cell (pos_offset : list (vec3 Z)) (h : Hop) : bool :=
  let '(i0, i1, _, _) := h in
  match list_item pos_offset i1, list_item pos_offset i0 with
  | inr o1, inr o0 => veqb o1 o0
  | _, _ => false
  end.

(** Sum of a list of complex numbers. *)
Definition csum (l : list C) : C := fold_right Cadd C0 l.

(** The stored terms that go into entry [(a, b)], whatever their [G]. *)
Definition hop_at (a b : nat) (h : Hop) : bool :=
  let '(i0, i1, _, _) := h in (i0 =? Z.of_nat a) && (i1 =? Z.of_nat b).

(** Contribution [t * exp(2 pi i G.k)] of one stored term. *)
Definition hop_weight (k : K) (h : Hop) : C :=
  Cmul (hop_t h) (phase (hop_G h) k).

(** Python resolves a negative index [i] on an axis of length [n] to
    [i + n]. *)
Definition wrap_index (n : nat) (i : Z) : Z :=
  if i <? 0 then i + Z.of_nat n else i.

Definition wrap_hop (n : nat) (h : Hop) : Hop :=
  let '(i0, i1, G, t) := h in (wrap_index n i0, wrap_index n i1, G, t).

(** The stored list holds, with each term, its Hermitian conjugate (as many
    times). *)
Definition conj_closed (hops : list Hop) : Prop :=
  Permutation (map conj_hop hops) hops.

(** [pos_offset[i]] where the index is valid. *)
Definition offset_at (pos_offset : list (vec3 Z)) (i : Z) : vec3 Z :=
  match list_item pos_offset i with
  | inr o => o
  | inl _ => (0, 0, 0)
  end.

(** The term [change_uc] stores for a term whose indices are valid. *)
Definition shift_hop (pos_offset : list (vec3 Z)) (h : Hop) : Hop :=
  let '(i0, i1, G, t) := h in
  (i0, i1, vsub (vadd G (offset_at pos_offset i1)) (offset_at pos_offset i0), t).

(** A term with its lattice vector negated. *)
Definition neg_G_hop (h : Hop) : Hop :=
  let '(i0, i1, G, t) := h in (i0, i1, vneg G, t).

(** The linear index [_pos_to_idx] computes when it does not raise. *)
Definition lin_idx (dim pos : vec3 Z) : Z :=
  let '(p0, p1, p2) := pos in
  let '(_, d1, d2) := dim in (p0 * d1 + p1) * d2 + p2.

(** What one round of the hopping loop of [supercell] appends for the
    sub-cell [uc0_pos] when no index error occurs: nothing for a term that
    is cut, the reindexed term otherwise. *)
Definition emit_hop (n : nat) (dim : vec3 Z) (periodic : vec3 bool)
    (uc0_pos : vec3 Z) (h : Hop) : list Hop :=
  let '(i0, i1, G, t) := h in
  let full := vadd uc0_pos G in
  if hop_is_cut periodic full dim then []
  else [(lin_idx dim uc0_pos * Z.of_nat n + i0,
         lin_idx dim (supercell_uc1_pos full dim) * Z.of_nat n + i1,
         supercell_new_G full dim, t)].

(** The edge flags [_edge_detect_pos] returns when it does not raise. *)
Definition edges_of (dim pos : vec3 Z) : vec3 Edges :=
  vmap2 (fun p d => (p =? 0, p =? d - 1)) pos dim.

(** The block of on-site energies [supercell] appends for one sub-cell. *)
Definition cell_on_site (on_site : list F) (dim : vec3 Z)
    (passivation : Passivation) (c : vec3 Z) : list F :=
  let '(ex, ey, ez) := edges_of dim c in
  zip_with Fadd on_site (passivation ex ey ez).

(** Component of a lattice vector along axis 0, 1 or 2. *)
Definition axis {A} (i : nat) (v : vec3 A) : A :=
  let '(x, y, z) := v in
  match i with
  | O => x
  | S O => y
  | _ => z
  end.

End Reference.

(** Arithmetic laws of exact complex numbers used for Hermiticity. *)
Record ExactLaws (N : Numeric) : Prop := {
  Cadd_comm : forall x y : C, Cadd x y = Cadd y x;
  Cadd_assoc : forall x y z : C, Cadd x (Cadd y z) = Cadd (Cadd x y) z;
  Cadd_0_l : forall x : C, Cadd C0 x = x;
  Cmul_0_l : forall x : C, Cmul C0 x = C0;
  Cmul_add_distr_r : forall x y z : C, Cmul (Cadd x y) z = Cadd (Cmul x z) (Cmul y z);
  Cconj_add : forall x y : C, Cconj (Cadd x y) = Cadd (Cconj x) (Cconj y);
  Cconj_mul : forall x y : C, Cconj (Cmul x y) = Cmul (Cconj x) (Cconj y);
  Cconj_invol : forall x : C, Cconj (Cconj x) = x;
  Cconj_0 : Cconj C0 = C0;
  Cconj_of_F : forall x : F, Cconj (C_of_F x) = C_of_F x;
  phase_conj : forall G (k : K), Cconj (phase G k) = phase (vneg G) k
}.

(** What [change_uc] needs of the linear algebra at the identity matrix. *)
Record IdentityLaws (N : Numeric) : Prop := {
  det_eye3 : Feq1 (la_det eye3) = true;
  solve_eye3 : forall p : vec3 F, la_solve eye3 p = p
}.

(** ** An exact instance

    Reals are rationals in canonical form, complex numbers are pairs of
    them, and k-points lie on the quarter grid: [(n1, n2, n3)] stands for
    [k = (n1/4, n2/4, n3/4)], where [exp(2 pi i G.k)] is the power
    [i ^ (G.n mod 4)] of the imaginary unit. *)

Module Exact.

Definition Qc_of_Z (z : Z) : Qc := Q2Qc (inject_Z z).

Definition Cx : Type := (Qc * Qc)%type.

Definition cx_add (x y : Cx) : Cx := (fst x + fst y, snd x + snd y)%Qc.
Definition cx_mul (x y : Cx) : Cx :=
  (fst x * fst y - snd x * snd y, fst x * snd y + snd x * fst y)%Qc.
Definition cx_conj (x : Cx) : Cx := (fst x, - snd x)%Qc.
Definition cx_of_Z (re im : Z) : Cx := (Qc_of_Z re, Qc_of_Z im).

Definition det3 (A : mat3 Qc) : Qc :=
  let '((a, b, c), (d, e, f), (g, h, i)) := A in
  (a * (e * i - f * h) - b * (d * i - f * g) + c * (d * h - e * g))%Qc.

(** Cramer's rule. *)
Definition solve3 (A : mat3 Qc) (p : vec3 Qc) : vec3 Qc :=
  let '((a, b, c), (d, e, f), (g, h, i)) := A in
  let '(p0, p1, p2) := p in
  let dt := det3 A in
  (det3 ((p0, b, c), (p1, e, f), (p2, h, i)) / dt,
   det3 ((a, p0, c), (d, p1, f), (g, p2, i)) / dt,
   det3 ((a, b, p0), (d, e, p1), (g, h, p2)) / dt)%Qc.

Definition dotZ (u v : vec3 Z) : Z :=
  let '(a, b, c) := u in let '(a', b', c') := v in a * a' + b * b' + c * c'.

(** [i ^ r] for [r] in [0..3]. *)
Definition i_pow (r : Z) : Cx :=
  if r =? 0 then cx_of_Z 1 0
  else if r =? 1 then cx_of_Z 0 1
  else if r =? 2 then cx_of_Z (-1) 0
  else cx_of_Z 0 (-1).

Definition quarter_phase (G k4 : vec3 Z) : Cx := i_pow (dotZ G k4 mod 4).

Definition vec3Z_eq_dec (u v : vec3 Z) : {u = v} + {u <> v}.
Proof. repeat decide equality. Defined.

#[export] Instance num : Numeric := {|
  F := Qc;
  C := Cx;
  K := vec3 Z;
  F0 := Qc_of_Z 0;
  F1 := Qc_of_Z 1;
  Fadd := Qcplus;
  Fmul := Qcmult;
  Fdiv := Qcdiv;
  F_of_Z := Qc_of_Z;
  Ffloor := fun x => Qfloor (this x);
  Fmod1 := fun x => (x - Qc_of_Z (Qfloor (this x)))%Qc;
  Feq1 := fun x => Qeq_bool (this x) 1;
  la_det := det3;
  la_solve := solve3;
  C0 := cx_of_Z 0 0;
  Cadd := cx_add;
  Cmul := cx_mul;
  Cconj := cx_conj;
  C_of_F := fun x => (x, Qc_of_Z 0);
  phase := quarter_phase;
  set_order := nodup vec3Z_eq_dec
|}.

(** Concrete inputs used to run the definitions. *)

Definition origin : vec3 Qc := (Qc_of_Z 0, Qc_of_Z 0, Qc_of_Z 0).
Definition G0 : vec3 Z := (0, 0, 0).

(** [Model(on_site=[0, 0], hop=[[0, 1, [0, 0, 0], 1.0]])] *)
Definition two_site_hop : list Hop := [(0, 1, G0, cx_of_Z 1 0)].
Definition two_site : Model :=
  mkModel None [Qc_of_Z 0; Qc_of_Z 0] [origin; origin]
          (two_site_hop ++ map conj_hop two_site_hop) 1 false None.

(** [Model(on_site=[0, 0], hop=[])], no hopping yet. *)
Definition bare : Model :=
  mkModel None [Qc_of_Z 0; Qc_of_Z 0] [origin; origin] [] 1 false None.

Definition unit_x : vec3 Qc := (Qc_of_Z 1, Qc_of_Z 0, Qc_of_Z 0).

(** The same model with the second orbital placed one cell further along x. *)
Definition two_site_moved : Model :=
  mkModel None [Qc_of_Z 0; Qc_of_Z 0] [origin; unit_x]
          (two_site_hop ++ map conj_hop two_site_hop) 1 false None.

(** [Model(on_site=[0], hop=[[0, 1, [0, 0, 0], 1.0]], add_cc=False)]: the
    term points at an orbital that does not exist. *)
Definition dangling : Model :=
  mkModel None [Qc_of_Z 0] [origin] [(0, 1, G0, cx_of_Z 1 0)] 0 false None.

(** [Model(on_site=[], hop=[])] *)
Definition no_orbital : Model := mkModel None [] [] [] 0 false None.

(** A unit cell doubled along x: determinant 2. *)
Definition double_x : mat3 Qc :=
  ((Qc_of_Z 2, Qc_of_Z 0, Qc_of_Z 0),
   (Qc_of_Z 0, Qc_of_Z 1, Qc_of_Z 0),
   (Qc_of_Z 0, Qc_of_Z 0, Qc_of_Z 1)).

(** [k = (1/2, 0, 0)] on the quarter grid. *)
Definition k_half_x : vec3 Z := (2, 0, 0).

(** [Model(on_site=[0, 0], hop=[[0, -1, [0, 0, 0], 1.0]])]: the second
    orbital addressed from the end. *)
Definition two_site_hop_neg : list Hop := [(0, -1, G0, cx_of_Z 1 0)].
Definition two_site_neg : Model :=
  mkModel None [Qc_of_Z 0; Qc_of_Z 0] [origin; origin]
          (two_site_hop_neg ++ map conj_hop two_site_hop_neg) 1 false None.

(** [Model(on_site=[0], hop=[[0, 0, [1, 0, 0], 1.0]])]: a chain along x. *)
Definition chain_hop : list Hop := [(0, 0, (1, 0, 0), cx_of_Z 1 0)].
Definition chain : Model :=
  mkModel None [Qc_of_Z 0] [origin]
          (chain_hop ++ map conj_hop chain_hop) 0 false None.

(** [k = (1/4, 0, 0)] on the quarter grid. *)
Definition k_quarter_x : vec3 Z := (1, 0, 0).

End Exact.

(** * Properties *)

Section Theory.

Context {Num : Numeric}.

(** ** Lattice vectors *)

Lemma veqb_eq (u v : vec3 Z) : veqb u v = true <-> u = v.
Proof.
  destruct u as [[a b] c], v as [[a' b'] c']; unfold veqb; simpl.
  rewrite !andb_true_iff, !Z.eqb_eq. split.
  - intros [[-> ->] ->]; reflexivity.
  - intros E; inversion E; auto.
Qed.

Lemma veqb_refl (u : vec3 Z) : veqb u u = true.
Proof. apply veqb_eq; reflexivity. Qed.

Lemma veqb_neq (u v : vec3 Z) : u <> v -> veqb u v = false.
Proof.
  intros H; destruct (veqb u v) eqn:E; [|reflexivity].
  apply veqb_eq in E; contradiction.
Qed.

Lemma vneg_invol (G : vec3 Z) : vneg (vneg G) = G.
Proof.
  destruct G as [[a b] c]; unfold vneg; simpl; rewrite !Z.opp_involutive; reflexivity.
Qed.

Lemma vadd_vsub (G o : vec3 Z) : vsub (vadd G o) o = G.
Proof.
  destruct G as [[a b] c], o as [[x y] z]; unfold vsub, vadd; simpl.
  f_equal; [f_equal|]; lia.
Qed.

(** ** Nested-list matrices *)

Lemma mk_matrix_ext n (f g : nat -> nat -> C) :
  (forall a b, (a < n)%nat -> (b < n)%nat -> f a b = g a b) ->
  mk_matrix n f = mk_matrix n g.
Proof.
  intros H; unfold mk_matrix.
  apply map_ext_in; intros a Ha; apply map_ext_in; intros b Hb.
  apply in_seq in Ha; apply in_seq in Hb; apply H; lia.
Qed.

Lemma length_mk_matrix n (f : nat -> nat -> C) : length (mk_matrix n f) = n.
Proof. unfold mk_matrix; rewrite length_map, length_seq; reflexivity. Qed.

Lemma get_mk_matrix n (f : nat -> nat -> C) a b :
  (a < n)%nat -> (b < n)%nat -> get (mk_matrix n f) a b = f a b.
Proof.
  intros Ha Hb; unfold get, mk_matrix.
  rewrite (nth_indep _ [] (map (fun b => f 0%nat b) (seq 0 n)))
    by (rewrite length_map, length_seq; exact Ha).
  rewrite (map_nth (fun a => map (fun b => f a b) (seq 0 n)) (seq 0 n) 0%nat a).
  rewrite seq_nth by exact Ha; simpl.
  rewrite (nth_indep _ C0 (f a 0%nat))
    by (rewrite length_map, length_seq; exact Hb).
  rewrite (map_nth (fun b => f a b) (seq 0 n) 0%nat b).
  rewrite seq_nth by exact Hb; reflexivity.
Qed.

Lemma zip_with_map {A B D E} (h : B -> D -> E) (f : A -> B) (g : A -> D) l :
  zip_with h (map f l) (map g l) = map (fun x => h (f x) (g x)) l.
Proof. induction l; simpl; [reflexivity | rewrite IHl; reflexivity]. Qed.

Lemma madd_mk_matrix n (f g : nat -> nat -> C) :
  madd (mk_matrix n f) (mk_matrix n g) = mk_matrix n (fun a b => Cadd (f a b) (g a b)).
Proof.
  unfold madd, mk_matrix; rewrite zip_with_map.
  apply map_ext; intros a; apply zip_with_map.
Qed.

Lemma mscale_mk_matrix n (f : nat -> nat -> C) c :
  mscale (mk_matrix n f) c = mk_matrix n (fun a b => Cmul (f a b) c).
Proof.
  unfold mscale, mk_matrix; rewrite map_map.
  apply map_ext; intros a; apply map_map.
Qed.

Lemma zeros_like_mk_matrix n (f : nat -> nat -> C) :
  zeros_like (mk_matrix n f) = mk_matrix n (fun _ _ => C0).
Proof.
  unfold zeros_like, mk_matrix; rewrite map_map.
  apply map_ext; intros a; apply map_map.
Qed.

Lemma upd_map_seq {A} (g : A -> A) (f : nat -> A) n : forall s a,
  upd a g (map f (seq s n)) =
  map (fun x => if Nat.eqb x (s + a) then g (f x) else f x) (seq s n).
Proof.
  induction n as [|n IH]; intros s a; simpl; [reflexivity|].
  destruct a as [|a].
  - rewrite Nat.add_0_r, Nat.eqb_refl; f_equal.
    apply map_ext_in; intros x Hx; apply in_seq in Hx.
    destruct (Nat.eqb_spec x s); [lia | reflexivity].
  - destruct (Nat.eqb_spec s (s + S a)); [lia|]; f_equal.
    rewrite IH; apply map_ext; intros x.
    replace (S s + a)%nat with (s + S a)%nat by lia; reflexivity.
Qed.

Lemma upd_mk_matrix n (f : nat -> nat -> C) (g : C -> C) a b :
  upd a (upd b g) (mk_matrix n f) =
  mk_matrix n (fun a' b' =>
    if Nat.eqb a' a && Nat.eqb b' b then g (f a' b') else f a' b').
Proof.
  unfold mk_matrix; rewrite upd_map_seq.
  apply map_ext; intros a'; simpl.
  destruct (Nat.eqb a' a); simpl; [|reflexivity].
  rewrite upd_map_seq; reflexivity.
Qed.

(** ** Locating [G] in the distinct-[G] list *)

Lemma index_of_In G l : In G l -> exists i, index_of G l = Some i.
Proof.
  induction l as [|G2 l IH]; simpl; [contradiction|]; intros H.
  destruct (veqb G2 G) eqn:E; [eexists; reflexivity|].
  destruct H as [->|H]; [rewrite veqb_refl in E; discriminate|].
  destruct (IH H) as [i ->]; eexists; reflexivity.
Qed.

Lemma upd_index_of {A} (f : A -> A) (g : vec3 Z -> A) G : forall l i,
  NoDup l -> index_of G l = Some i ->
  upd i f (map g l) = map (fun x => if veqb x G then f (g x) else g x) l.
Proof.
  induction l as [|G2 l IH]; simpl; intros i ND H; [discriminate|].
  inversion ND as [|? ? Hnin ND']; subst.
  destruct (veqb G2 G) eqn:E.
  - injection H as <-; simpl; f_equal.
    apply veqb_eq in E; subst G2.
    apply map_ext_in; intros x Hx.
    rewrite veqb_neq; [reflexivity | intros ->; contradiction].
  - destruct (index_of G l) as [i'|] eqn:E'; [|discriminate].
    injection H as <-; simpl; f_equal; apply IH; auto.
Qed.

(** ** [_precompute] fills the parts with the per-[G] sums *)

Lemma py_index_in_range n i :
  0 <= i < Z.of_nat n -> py_index n i = Some (Z.to_nat i).
Proof.
  intros H; unfold py_index.
  destruct (Z.leb_spec 0 i); [|lia].
  destruct (Z.ltb_spec i (Z.of_nat n)); [reflexivity | lia].
Qed.

Lemma hop_in_range_spec n i0 i1 G (t : C) :
  hop_in_range n (i0, i1, G, t) = true ->
  0 <= i0 < Z.of_nat n /\ 0 <= i1 < Z.of_nat n.
Proof.
  unfold hop_in_range; rewrite !andb_true_iff.
  rewrite !Z.leb_le, !Z.ltb_lt; lia.
Qed.

Lemma foldM_accumulate n GL : NoDup GL ->
  forall hops,
  (forall h, In h hops -> In (hop_G h) GL) ->
  forallb (hop_in_range n) hops = true ->
  forall acc : vec3 Z -> nat -> nat -> C,
  foldM (accumulate_hop n GL) hops (map (fun G => mk_matrix n (acc G)) GL) =
  inr (map (fun G => mk_matrix n (fun a b =>
         fold_left Cadd (map hop_t (filter (hop_matches a b G) hops)) (acc G a b)))
         GL).
Proof.
  intros ND; induction hops as [|h hops IH]; intros Hin Hr acc.
  - reflexivity.
  - simpl in Hr; apply andb_true_iff in Hr as [Hh Hr].
    destruct h as [[[i0 i1] G] t].
    destruct (hop_in_range_spec _ _ _ _ _ Hh) as [H0 H1].
    destruct (index_of_In G GL) as [i Hi]; [apply (Hin (i0, i1, G, t)); left; reflexivity|].
    cbn [foldM]; unfold accumulate_hop at 1.
    rewrite Hi, (py_index_in_range _ _ H0), (py_index_in_range _ _ H1).
    cbn [bind ret].
    rewrite (upd_index_of _ _ G GL i ND Hi).
    rewrite (map_ext _ (fun G' => mk_matrix n (fun a b =>
               if veqb G' G && (Nat.eqb a (Z.to_nat i0) && Nat.eqb b (Z.to_nat i1))
               then Cadd (acc G' a b) t else acc G' a b))).
    2:{ intros G'; destruct (veqb G' G); simpl; [|reflexivity].
        apply upd_mk_matrix. }
    rewrite IH; [|intros h Hh'; apply Hin; right; exact Hh' | exact Hr].
    f_equal; apply map_ext; intros G'; apply mk_matrix_ext; intros a b _ _.
    cbn [filter hop_matches].
    replace (i0 =? Z.of_nat a) with (Nat.eqb a (Z.to_nat i0))
      by (destruct (Nat.eqb_spec a (Z.to_nat i0)), (Z.eqb_spec i0 (Z.of_nat a)); lia).
    replace (i1 =? Z.of_nat b) with (Nat.eqb b (Z.to_nat i1))
      by (destruct (Nat.eqb_spec b (Z.to_nat i1)), (Z.eqb_spec i1 (Z.of_nat b)); lia).
    rewrite andb_comm.
    destruct (veqb G' G); simpl; [|rewrite andb_false_r; reflexivity].
    rewrite andb_true_r.
    destruct (Nat.eqb a (Z.to_nat i0) && Nat.eqb b (Z.to_nat i1)); reflexivity.
Qed.

Lemma combine_map_r {A B} (f : A -> B) l :
  combine l (map f l) = map (fun x => (x, f x)) l.
Proof. induction l; simpl; [reflexivity | rewrite IHl; reflexivity]. Qed.

Lemma fold_left_map {A B S} (f : S -> B -> S) (g : A -> B) l : forall s,
  fold_left f (map g l) s = fold_left (fun s x => f s (g x)) l s.
Proof. induction l; simpl; intros; [reflexivity | apply IHl]. Qed.

Lemma zeros_like_np_diag v :
  zeros_like (np_diag v) = mk_matrix (length v) (fun _ _ => C0).
Proof. apply zeros_like_mk_matrix. Qed.

(** What [_precompute] builds for in-range terms: the diagonal matrix, the
    distinct-[G] list and, for each entry of that list, [M_G]. *)
Lemma build_cache_in_range (L : SetOrderLaws Num) on_site hops :
  forallb (hop_in_range (length on_site)) hops = true ->
  build_cache on_site hops =
  inr (mkCache (np_diag on_site) (set_order (map hop_G hops))
               (map (M_G (length on_site) hops) (set_order (map hop_G hops)))).
Proof.
  intros Hr; unfold build_cache.
  set (GL := set_order (map hop_G hops)).
  rewrite zeros_like_np_diag.
  rewrite (foldM_accumulate _ GL (set_order_NoDup _ L _) hops); [reflexivity | | exact Hr].
  intros h Hh; apply (set_order_In _ L); apply in_map; exact Hh.
Qed.

Lemma bloch_sum_spec on_site hops k :
  bloch_sum (mkCache (np_diag on_site) (set_order (map hop_G hops))
               (map (M_G (length on_site) hops) (set_order (map hop_G hops)))) k =
  bloch_spec on_site hops k.
Proof.
  unfold bloch_sum, bloch_spec; cbn [_G_list _hamilton_parts _hamilton_diag].
  rewrite combine_map_r, fold_left_map; reflexivity.
Qed.

(** ** What [hamilton] returns *)

(** The Hamiltonian computed from scratch for given on-site energies and
    hopping list. *)
Lemma observe_hamilton_fresh m k :
  _unchanged m = false ->
  observe (hamilton m k) =
  match build_cache (_on_site m) (_hop m) with
  | inl e => inl e
  | inr c => inr (bloch_sum c k)
  end.
Proof.
  intros U; unfold hamilton, _precompute; rewrite U.
  destruct (build_cache (_on_site m) (_hop m)); reflexivity.
Qed.

Lemma observe_hamilton_valid m k :
  cache_valid m ->
  observe (hamilton m k) =
  match build_cache (_on_site m) (_hop m) with
  | inl e => inl e
  | inr c => inr (bloch_sum c k)
  end.
Proof.
  intros V; destruct (_unchanged m) eqn:U.
  - destruct (V U) as [c [Hc Hb]]; unfold hamilton; rewrite U, Hb; simpl.
    rewrite Hc; reflexivity.
  - apply observe_hamilton_fresh; exact U.
Qed.

(** [hamilton] leaves a valid cache behind, and [__init__] starts with an
    invalid one. *)
Lemma hamilton_cache_valid m k H m' :
  cache_valid m -> hamilton m k = inr (H, m') -> cache_valid m'.
Proof.
  intros V E; unfold hamilton in E.
  destruct (_unchanged m) eqn:U; simpl in E.
  - destruct (_cache m); [|discriminate]; injection E as _ <-; exact V.
  - unfold _precompute in E.
    destruct (build_cache (_on_site m) (_hop m)) as [e|c] eqn:B; simpl in E; [discriminate|].
    injection E as _ <-; intros _; exists c; simpl; auto.
Qed.

Lemma init_unchanged on_site hops pos occ add_cc uc m :
  __init__ on_site hops pos occ add_cc uc = inr m -> _unchanged m = false.
Proof.
  unfold __init__; intros E.
  destruct pos as [ps|]; simpl in E;
    [destruct (Nat.eqb (length ps) (length on_site)); simpl in E; [|discriminate]|];
    injection E as <-; reflexivity.
Qed.

Lemma init_cache_valid on_site hops pos occ add_cc uc m :
  __init__ on_site hops pos occ add_cc uc = inr m -> cache_valid m.
Proof.
  intros E U; rewrite (init_unchanged _ _ _ _ _ _ _ E) in U; discriminate.
Qed.

Lemma hamilton_ignores_pos m ps k :
  observe (hamilton (mkModel (_uc m) (_on_site m) ps (_hop m) (_occ m)
                             (_unchanged m) (_cache m)) k) =
  observe (hamilton m k).
Proof.
  unfold hamilton, _precompute; simpl.
  destruct (_unchanged m); simpl.
  - destruct (_cache m); reflexivity.
  - destruct (build_cache (_on_site m) (_hop m)); reflexivity.
Qed.

Lemma init_fields on_site hops pos occ add_cc uc m :
  __init__ on_site hops pos occ add_cc uc = inr m ->
  _on_site m = on_site /\
  _hop m = (if add_cc then hops ++ map conj_hop hops else hops) /\
  _occ m = match occ with
           | None => Z.of_nat (length on_site) / 2
           | Some o => o
           end /\
  _uc m = uc /\ _unchanged m = false /\ _cache m = None /\
  length (_pos m) = length on_site /\
  (forall ps, pos = Some ps -> _pos m = ps).
Proof.
  assert (Hid : forall l : list Hop,
             map (fun '(i0, i1, G, t) => (i0, i1, G, t)) l = l).
  { induction l as [|[[[? ?] ?] ?] l IH]; simpl; [|rewrite IH]; reflexivity. }
  unfold __init__; intros E.
  destruct pos as [ps|]; simpl in E.
  - destruct (Nat.eqb_spec (length ps) (length on_site)) as [Hl|]; simpl in E; [|discriminate].
    injection E as <-; simpl; rewrite Hid.
    repeat split; auto. intros ? [= ->]; reflexivity.
  - injection E as <-; simpl; rewrite Hid, length_map.
    repeat split; auto. intros ? [=].
Qed.

Lemma observe_hamilton_in_range (L : SetOrderLaws Num) (m : Model) (k : K) :
  cache_valid m ->
  forallb (hop_in_range (length (_on_site m))) (_hop m) = true ->
  observe (hamilton m k) = inr (bloch_spec (_on_site m) (_hop m) k).
Proof.
  intros V Hr; rewrite (observe_hamilton_valid _ _ V).
  rewrite (build_cache_in_range L _ _ Hr), bloch_sum_spec; reflexivity.
Qed.

(** ** The claims about [hamilton] *)


(** C9: with well-formed stored terms every term's [G] is found in the
    distinct-[G] list, [_precompute] completes, and [hamilton] never raises
    the 'G not found in G_list' error. *)
Theorem G_not_found_unreachable (L : SetOrderLaws Num) (m : Model) (k : K) :
  forallb (hop_in_range (length (_on_site m))) (_hop m) = true ->
  (forall h, In h (_hop m) ->
     exists i, index_of (hop_G h) (set_order (map hop_G (_hop m))) = Some i) /\
  (exists m', _precompute m = inr m') /\
  observe (hamilton m k) <> inl (ValueError G_not_found).
Proof.
  intros Hr; split; [|split].
  - intros h Hh; apply index_of_In, (set_order_In _ L), in_map; exact Hh.
  - unfold _precompute; rewrite (build_cache_in_range L _ _ Hr); simpl.
    eexists; reflexivity.
  - unfold hamilton, _precompute.
    destruct (_unchanged m); simpl.
    + destruct (_cache m); simpl; discriminate.
    + rewrite (build_cache_in_range L _ _ Hr); simpl; discriminate.
Qed.

(** C10: two models built from the same [on_site], [hop], [occ], [add_cc]
    and [uc] but different [pos] return the same [hamilton(k)]. *)
Theorem hamilton_independent_of_pos on_site hops occ add_cc uc pos1 pos2 m1 m2 k :
  __init__ on_site hops pos1 occ add_cc uc = inr m1 ->
  __init__ on_site hops pos2 occ add_cc uc = inr m2 ->
  observe (hamilton m1 k) = observe (hamilton m2 k).
Proof.
  intros E1 E2.
  destruct (init_fields _ _ _ _ _ _ _ E1) as (S1 & H1 & O1 & U1 & N1 & C1 & _).
  destruct (init_fields _ _ _ _ _ _ _ E2) as (S2 & H2 & O2 & U2 & N2 & C2 & _).
  rewrite <- (hamilton_ignores_pos m2 (_pos m1)).
  destruct m1, m2; simpl in *; congruence.
Qed.

(** ** The class invariant and the cache *)

Lemma init_class_inv on_site hops pos occ add_cc uc m :
  __init__ on_site hops pos occ add_cc uc = inr m -> class_inv m.
Proof.
  intros E; destruct (init_fields _ _ _ _ _ _ _ E) as (S & _ & _ & _ & _ & _ & Hl & _).
  unfold class_inv; rewrite Hl, S; reflexivity.
Qed.

Lemma add_hop_class_inv m hs : class_inv m -> class_inv (add_hop m hs).
Proof. intros H; exact H. Qed.

Lemma hamilton_class_inv m k H m' :
  hamilton m k = inr (H, m') -> class_inv m -> class_inv m'.
Proof.
  unfold hamilton, _precompute; intros E Inv.
  destruct (_unchanged m); simpl in E.
  - destruct (_cache m); [|discriminate]; injection E as _ <-; exact Inv.
  - destruct (build_cache (_on_site m) (_hop m)); simpl in E; [discriminate|].
    injection E as _ <-; exact Inv.
Qed.

(** With a cache that is invalid or consistent, answering from the cache
    and rebuilding on every call cannot be told apart. *)
Lemma hamilton_refines_rebuild m k :
  cache_valid m -> observe (hamilton m k) = observe (hamilton_rebuild m k).
Proof.
  intros V; rewrite (observe_hamilton_valid _ _ V).
  unfold hamilton_rebuild, _precompute.
  destruct (build_cache (_on_site m) (_hop m)); reflexivity.
Qed.

(** ** [add_hop] after [hamilton] *)

(** Once [hamilton] has run, [add_hop] leaves [_unchanged] set and the next
    [hamilton] call answers from the old cache. *)
Lemma add_hop_keeps_cache m hs k :
  _unchanged m = true ->
  observe (hamilton (add_hop m hs) k) = observe (hamilton m k).
Proof.
  intros U; unfold hamilton, add_hop; simpl; rewrite U; simpl.
  destruct (_cache m); reflexivity.
Qed.

Lemma add_hop_not_setattr m hs :
  _unchanged m = true ->
  _unchanged (add_hop m hs) = true /\
  _unchanged (setattr_hop m (_hop m ++ hs)) = false.
Proof. intros U; split; [exact U | reflexivity]. Qed.

(** ** [supercell] *)

Lemma in_range n x : In x (range n) <-> 0 <= x < n.
Proof.
  unfold range; rewrite in_map_iff; split.
  - intros [i [<- Hi]]; apply in_seq in Hi; lia.
  - intros H; exists (Z.to_nat x); split; [lia | apply in_seq; lia].
Qed.

Lemma length_range n : length (range n) = Z.to_nat n.
Proof. unfold range; rewrite length_map, length_seq; reflexivity. Qed.

Lemma in_cells dx dy dz i j k :
  In (i, j, k) (cells (dx, dy, dz)) <-> 0 <= i < dx /\ 0 <= j < dy /\ 0 <= k < dz.
Proof.
  unfold cells; rewrite in_flat_map; split.
  - intros [i' [Hi H]]; apply in_flat_map in H as [j' [Hj H]].
    apply in_map_iff in H as [k' [E Hk]]; injection E as -> -> ->.
    rewrite in_range in Hi, Hj, Hk; auto.
  - intros (Hi & Hj & Hk); exists i; split; [apply in_range; exact Hi|].
    apply in_flat_map; exists j; split; [apply in_range; exact Hj|].
    apply in_map, in_range; exact Hk.
Qed.

Lemma length_cells dx dy dz :
  length (cells (dx, dy, dz)) = (Z.to_nat dx * Z.to_nat dy * Z.to_nat dz)%nat.
Proof.
  unfold cells.
  rewrite (flat_map_constant_length (c := (Z.to_nat dy * Z.to_nat dz)%nat)).
  - rewrite length_range; lia.
  - intros i _; rewrite (flat_map_constant_length (c := Z.to_nat dz)).
    + rewrite length_range; reflexivity.
    + intros j _; rewrite length_map, length_range; reflexivity.
Qed.

Lemma cell_in_bounds dim c : In c (cells dim) -> out_of_bounds c dim = false.
Proof.
  destruct dim as [[dx dy] dz], c as [[i j] k]; rewrite in_cells.
  intros (Hi & Hj & Hk); unfold out_of_bounds; simpl.
  rewrite !orb_false_iff, !Z.geb_leb, !Z.leb_gt; lia.
Qed.

Lemma wrapped_in_bounds dx dy dz p :
  0 < dx -> 0 < dy -> 0 < dz ->
  out_of_bounds (supercell_uc1_pos p (dx, dy, dz)) (dx, dy, dz) = false.
Proof.
  intros Hx Hy Hz; destruct p as [[a b] c]; unfold out_of_bounds; simpl.
  rewrite !orb_false_iff, !Z.geb_leb, !Z.leb_gt.
  pose proof (Z.mod_pos_bound a dx Hx); pose proof (Z.mod_pos_bound b dy Hy);
    pose proof (Z.mod_pos_bound c dz Hz); lia.
Qed.

(** The term emitted for a stored term processed at a sub-cell of the
    supercell: nothing when cut, otherwise the reindexed term. *)
Lemma supercell_hop_emits n dx dy dz periodic uc0 i0 i1 G (t : C) :
  let dim := (dx, dy, dz) in
  let full := vadd uc0 G in
  0 < dx -> 0 < dy -> 0 < dz -> In uc0 (cells dim) ->
  exists new_i0 new_i1,
    _pos_to_idx uc0 dim = inr new_i0 /\
    _pos_to_idx (supercell_uc1_pos full dim) dim = inr new_i1 /\
    supercell_hop n dim periodic uc0 (i0, i1, G, t) =
    inr (if hop_is_cut periodic full dim then None
         else Some (new_i0 * Z.of_nat n + i0, new_i1 * Z.of_nat n + i1,
                    supercell_new_G full dim, t)).
Proof.
  intros dim full Hx Hy Hz Hc; subst dim.
  unfold supercell_hop, full_idx, _pos_to_idx.
  rewrite (cell_in_bounds _ _ Hc); fold full.
  rewrite (wrapped_in_bounds dx dy dz full Hx Hy Hz).
  destruct uc0 as [[u0 u1] u2].
  destruct (supercell_uc1_pos full (dx, dy, dz)) as [[w0 w1] w2] eqn:W.
  do 2 eexists; split; [reflexivity|]; split; [reflexivity|].
  cbn [bind ret].
  destruct (hop_is_cut periodic full (dx, dy, dz)); reflexivity.
Qed.

(** Where the unwrapped destination has no negative component, quotient and
    remainder recompose it. *)
Lemma supercell_recompose_nonneg dx dy dz p0 p1 p2 :
  0 < dx -> 0 < dy -> 0 < dz -> 0 <= p0 -> 0 <= p1 -> 0 <= p2 ->
  vadd (vmul (supercell_new_G (p0, p1, p2) (dx, dy, dz)) (dx, dy, dz))
       (supercell_uc1_pos (p0, p1, p2) (dx, dy, dz)) = (p0, p1, p2).
Proof.
  intros; unfold vadd, vmul, supercell_new_G, supercell_uc1_pos; simpl.
  rewrite !Z.quot_div_nonneg by lia.
  rewrite (Z.div_mod p0 dx) at 3 by lia.
  rewrite (Z.div_mod p1 dy) at 3 by lia.
  rewrite (Z.div_mod p2 dz) at 3 by lia.
  f_equal; [f_equal|]; lia.
Qed.

Lemma foldM_total {A S} (f : S -> A -> result S) l :
  (forall s a, In a l -> exists s', f s a = inr s') ->
  forall s, exists s', foldM f l s = inr s'.
Proof.
  induction l as [|a l IH]; intros H s; simpl.
  - eexists; reflexivity.
  - destruct (H s a) as [s1 E]; [left; reflexivity|].
    rewrite E; simpl; apply IH; intros; apply H; right; assumption.
Qed.

Lemma supercell_hops_total n dx dy dz periodic hops :
  0 < dx -> 0 < dy -> 0 < dz ->
  exists new_hop, supercell_hops n (dx, dy, dz) periodic hops = inr new_hop.
Proof.
  intros Hx Hy Hz; unfold supercell_hops.
  apply foldM_total; intros acc c Hc.
  apply foldM_total; intros acc' [[[i0 i1] G] t] _.
  destruct (supercell_hop_emits n dx dy dz periodic c i0 i1 G t Hx Hy Hz Hc)
    as (a & b & _ & _ & E).
  rewrite E; simpl; eexists; reflexivity.
Qed.

Lemma length_zip_with {A B D} (f : A -> B -> D) l : forall l',
  length l' = length l -> length (zip_with f l l') = length l.
Proof.
  induction l as [|a l IH]; intros [|b l'] H; simpl in *; try reflexivity; try discriminate.
  rewrite IH; [reflexivity | lia].
Qed.

Lemma iadd_same_length a b :
  length b = length a ->
  exists r, iadd a b = inr r /\ length r = length a.
Proof.
  intros H; unfold iadd; rewrite H, Nat.eqb_refl.
  eexists; split; [reflexivity | apply length_zip_with; exact H].
Qed.

Lemma supercell_on_site_length on_site dim (pv : Passivation) :
  (forall ex ey ez, length (pv ex ey ez) = length on_site) ->
  forall cs, (forall c, In c cs -> In c (cells dim)) ->
  forall acc, exists r,
    foldM (fun new_on_site c =>
             bind (_edge_detect_pos c dim) (fun e =>
             let '(ex, ey, ez) := e in
             bind (iadd on_site (pv ex ey ez)) (fun tmp_on_site =>
             ret (new_on_site ++ tmp_on_site)))) cs acc = inr r /\
    length r = (length acc + length cs * length on_site)%nat.
Proof.
  intros Hpv; induction cs as [|c cs IH]; intros Hcs acc; simpl.
  - eexists; split; [reflexivity | lia].
  - unfold _edge_detect_pos at 1.
    rewrite (cell_in_bounds dim c) by (apply Hcs; left; reflexivity).
    cbn [bind ret].
    destruct (vmap2 _ c dim) as [[ex ey] ez].
    destruct (iadd_same_length on_site (pv ex ey ez) (Hpv ex ey ez)) as [r [E Hr]].
    rewrite E; cbn [bind ret].
    destruct (IH (fun c' H => Hcs c' (or_intror H)) (acc ++ r)) as [r' [E' Hr']].
    exists r'; split; [exact E'|].
    rewrite Hr', length_app, Hr; lia.
Qed.

Lemma length_supercell_pos pos dim :
  length (supercell_pos pos dim) = (length (cells dim) * length pos)%nat.
Proof.
  unfold supercell_pos.
  apply flat_map_constant_length; intros c _; rewrite !length_map; reflexivity.
Qed.


(** ** [trs] *)

(** For a model with at least one orbital [trs] doubles on-site energies,
    positions and occupation, keeps the stored terms and appends the
    mirrored term of each, unconjugated. *)
Lemma trs_doubles (m : Model) :
  class_inv m -> _pos m <> [] ->
  exists m',
    trs m = inr m' /\
    _on_site m' = _on_site m ++ _on_site m /\
    _pos m' = _pos m ++ _pos m /\
    length (_on_site m') = (2 * length (_on_site m))%nat /\
    _occ m' = _occ m * 2 /\
    _hop m' = _hop m ++ map (trs_mirror (length (_on_site m))) (_hop m) /\
    _uc m' = _uc m.
Proof.
  intros Inv Hne; unfold trs.
  destruct (_pos m) as [|p ps] eqn:P; [contradiction|]; rewrite <- P.
  destruct (__init__ (_on_site m ++ _on_site m)
              (_hop m ++ map (fun '(i0, i1, G, t) =>
                 (i1 + Z.of_nat (length (_on_site m)),
                  i0 + Z.of_nat (length (_on_site m)), vneg G, t)) (_hop m))
              (Some (_pos m ++ _pos m)) (Some (_occ m * 2)) false (_uc m))
    as [e|m'] eqn:E.
  - unfold __init__ in E; rewrite !length_app, Inv, Nat.eqb_refl in E; discriminate E.
  - destruct (init_fields _ _ _ _ _ _ _ E) as (S & H & O & U & _ & _ & _ & Hp).
    exists m'; repeat split; auto.
    rewrite S, length_app; lia.
Qed.

Lemma trs_without_orbitals (m : Model) :
  _pos m = [] -> trs m = inl (ValueError invalid_pos).
Proof. intros P; unfold trs; rewrite P; reflexivity. Qed.

(** ** [change_uc] *)

Lemma py_index_valid n i :
  - Z.of_nat n <= i < Z.of_nat n -> exists a, py_index n i = Some a /\ (a < n)%nat.
Proof.
  intros H; unfold py_index.
  destruct (Z.leb_spec 0 i); simpl.
  - destruct (Z.ltb_spec i (Z.of_nat n)); [|lia].
    eexists; split; [reflexivity | lia].
  - destruct (Z.leb_spec (- Z.of_nat n) i); [|lia].
    destruct (Z.ltb_spec i 0); [|lia]; simpl.
    eexists; split; [reflexivity | lia].
Qed.

Lemma list_item_valid {A} (l : list A) i :
  - Z.of_nat (length l) <= i < Z.of_nat (length l) -> exists a, list_item l i = inr a.
Proof.
  intros H; unfold list_item.
  destruct (py_index_valid _ _ H) as [n [-> Hn]].
  destruct (nth_error l n) eqn:E; [eexists; reflexivity|].
  apply nth_error_None in E; lia.
Qed.

Lemma hop_index_valid_spec n i0 i1 G (t : C) :
  hop_index_valid n (i0, i1, G, t) = true ->
  - Z.of_nat n <= i0 < Z.of_nat n /\ - Z.of_nat n <= i1 < Z.of_nat n.
Proof.
  unfold hop_index_valid; rewrite !andb_true_iff.
  rewrite !Z.leb_le, !Z.ltb_lt; lia.
Qed.

Lemma mapM_total {A B} (f : A -> result B) l :
  (forall a, In a l -> exists b, f a = inr b) -> exists bs, mapM f l = inr bs.
Proof.
  induction l as [|a l IH]; intros H; simpl.
  - eexists; reflexivity.
  - destruct (H a (or_introl eq_refl)) as [b ->]; simpl.
    destruct IH as [bs ->]; [intros; apply H; right; assumption|].
    eexists; reflexivity.
Qed.

Lemma mapM_id {A} (f : A -> result A) l :
  (forall a, In a l -> f a = inr a) -> mapM f l = inr l.
Proof.
  induction l as [|a l IH]; intros H; simpl; [reflexivity|].
  rewrite (H a (or_introl eq_refl)); simpl.
  rewrite IH; [reflexivity | intros; apply H; right; assumption].
Qed.

Lemma mapM_error {A B} (f : A -> result B) l (P : PyError -> Prop) :
  (forall a e, f a = inl e -> P e) -> forall e, mapM f l = inl e -> P e.
Proof.
  intros H; induction l as [|a l IH]; simpl; intros e E; [discriminate|].
  destruct (f a) as [e'|b] eqn:Fa; simpl in E.
  - injection E as <-; eapply H; exact Fa.
  - destruct (mapM f l) as [e'|bs]; simpl in E; [|discriminate].
    injection E as <-; apply IH; reflexivity.
Qed.

Lemma list_item_error {A} (l : list A) i e :
  list_item l i = inl e -> e = IndexError.
Proof.
  unfold list_item, raise, ret.
  destruct (py_index (length l) i) as [n|]; [|intros [= <-]; reflexivity].
  destruct (nth_error l n); [discriminate | intros [= <-]; reflexivity].
Qed.

Lemma change_uc_hop_error offs h e :
  change_uc_hop offs h = inl e -> e = IndexError.
Proof.
  destruct h as [[[i0 i1] G] t]; unfold change_uc_hop.
  destruct (list_item offs i1) as [e1|o1] eqn:E1; simpl.
  - intros [= <-]; eapply list_item_error; exact E1.
  - destruct (list_item offs i0) as [e0|o0] eqn:E0; simpl; [|discriminate].
    intros [= <-]; eapply list_item_error; exact E0.
Qed.

Lemma change_uc_det_one (m : Model) uc :
  Feq1 (la_det uc) = true ->
  change_uc m uc =
  bind (mapM (change_uc_hop (map (vmap Ffloor) (map (la_solve uc) (_pos m)))) (_hop m))
       (fun new_hop =>
          __init__ (_on_site m) new_hop
                   (Some (map (vmap Fmod1) (map (la_solve uc) (_pos m))))
                   (Some (_occ m)) false
                   (option_map (fun old => mat_dot old uc) (_uc m))).
Proof. intros H; unfold change_uc; rewrite H; reflexivity. Qed.

(** C7 (amended): [change_uc] raises the determinant error, carrying the
    computed determinant, exactly when that determinant is not 1; when it is
    1 and every stored hopping index addresses an existing orbital, a new
    model with the same on-site energies and occupation is returned. *)
Theorem change_uc_determinant_check (m : Model) (uc : mat3 F) :
  ((exists d, change_uc m uc = inl (ValueError (det_not_one d))) <->
   Feq1 (la_det uc) = false) /\
  (Feq1 (la_det uc) = false ->
   change_uc m uc = inl (ValueError (det_not_one (la_det uc)))) /\
  (Feq1 (la_det uc) = true ->
   class_inv m ->
   forallb (hop_index_valid (length (_on_site m))) (_hop m) = true ->
   exists m', change_uc m uc = inr m' /\
              _on_site m' = _on_site m /\ _occ m' = _occ m /\
              length (_hop m') = length (_hop m)).
Proof.
  assert (Hraise : Feq1 (la_det uc) = false ->
                   change_uc m uc = inl (ValueError (det_not_one (la_det uc)))).
  { intros H; unfold change_uc; rewrite H; reflexivity. }
  split; [split|split].
  - intros [d E]; destruct (Feq1 (la_det uc)) eqn:D; [|reflexivity].
    rewrite (change_uc_det_one _ _ D) in E.
    destruct (mapM _ (_hop m)) as [e|new_hop] eqn:M; simpl in E.
    + apply (mapM_error _ _ (fun e => e = IndexError)) in M;
        [simpl in M; subst e; discriminate E|].
      intros h e'; apply change_uc_hop_error.
    + unfold __init__ in E.
      destruct (Nat.eqb _ _); simpl in E; discriminate E.
  - intros H; eexists; apply Hraise; exact H.
  - exact Hraise.
  - intros D Inv Hv; rewrite (change_uc_det_one _ _ D).
    set (offs := map (vmap Ffloor) (map (la_solve uc) (_pos m))).
    assert (Hoffs : length offs = length (_on_site m))
      by (unfold offs; rewrite !length_map; exact Inv).
    destruct (mapM_total (change_uc_hop offs) (_hop m)) as [new_hop M].
    { intros [[[i0 i1] G] t] Hin.
      rewrite forallb_forall in Hv; specialize (Hv _ Hin).
      apply hop_index_valid_spec in Hv as [H0 H1]; rewrite <- Hoffs in H0, H1.
      destruct (list_item_valid offs i0 H0) as [o0 E0].
      destruct (list_item_valid offs i1 H1) as [o1 E1].
      unfold change_uc_hop; rewrite E1, E0; simpl; eexists; reflexivity. }
    rewrite M; cbn [bind].
    destruct (__init__ (_on_site m) new_hop _ _ false _) as [e|m'] eqn:E.
    + unfold __init__ in E; rewrite !length_map, Inv, Nat.eqb_refl in E; discriminate E.
    + destruct (init_fields _ _ _ _ _ _ _ E) as (S & H & O & _).
      exists m'; repeat split; auto.
      rewrite H; clear - M; revert new_hop M.
      induction (_hop m) as [|h l IH]; simpl; intros new_hop M.
      * injection M as <-; reflexivity.
      * destruct (change_uc_hop offs h); simpl in M; [discriminate|].
        destruct (mapM (change_uc_hop offs) l); simpl in M; [discriminate|].
        injection M as <-; simpl; f_equal; apply IH; reflexivity.
Qed.

Lemma change_uc_hop_same_cell offs h :
  hop_same_cell offs h = true -> change_uc_hop offs h = inr h.
Proof.
  destruct h as [[[i0 i1] G] t]; unfold hop_same_cell, change_uc_hop.
  destruct (list_item offs i1) as [|o1]; [discriminate|].
  destruct (list_item offs i0) as [|o0]; [discriminate|].
  intros E; apply veqb_eq in E; subst o1; simpl.
  rewrite vadd_vsub; reflexivity.
Qed.

(** C8 (amended): for a model whose cache is not stale and in which the two
    orbitals of every stored term exist and have positions with the same
    component-wise floor, [change_uc] with the identity returns a model with
    the same [hamilton(k)] for every [k]. *)
Theorem change_uc_identity (I : IdentityLaws Num) (m : Model) :
  class_inv m -> cache_valid m ->
  forallb (hop_same_cell (map (vmap Ffloor) (_pos m))) (_hop m) = true ->
  exists m',
    change_uc m eye3 = inr m' /\
    forall k, observe (hamilton m' k) = observe (hamilton m k).
Proof.
  intros Inv V Hs.
  rewrite (change_uc_det_one _ _ (det_eye3 _ I)).
  rewrite (map_ext _ (fun p => p) (solve_eye3 _ I)), map_id.
  rewrite mapM_id.
  2:{ intros h Hh; apply change_uc_hop_same_cell.
      rewrite forallb_forall in Hs; apply Hs; exact Hh. }
  cbn [bind].
  destruct (__init__ (_on_site m) (_hop m) _ _ false _) as [e|m'] eqn:E.
  - unfold __init__ in E; rewrite !length_map, Inv, Nat.eqb_refl in E; discriminate E.
  - destruct (init_fields _ _ _ _ _ _ _ E) as (S & H & _ & _ & U & _).
    exists m'; split; [reflexivity|]; intros k.
    rewrite (observe_hamilton_fresh _ _ U), (observe_hamilton_valid _ _ V), S, H.
    reflexivity.
Qed.

(** ** Hermiticity *)

Lemma fold_left_mk_matrix n (A : vec3 Z -> nat -> nat -> C) (p : vec3 Z -> C) GL :
  forall f0,
  fold_left (fun H G => madd H (mscale (mk_matrix n (A G)) (p G))) GL (mk_matrix n f0) =
  mk_matrix n (fun a b =>
    fold_left (fun x G => Cadd x (Cmul (A G a b) (p G))) GL (f0 a b)).
Proof.
  induction GL as [|G GL IH]; intros f0; simpl; [reflexivity|].
  rewrite mscale_mk_matrix, madd_mk_matrix, IH; reflexivity.
Qed.

Lemma conj_transpose_mk_matrix n (f : nat -> nat -> C) :
  conj_transpose (mk_matrix n f) = mk_matrix n (fun a b => Cconj (f b a)).
Proof.
  unfold conj_transpose; rewrite length_mk_matrix.
  apply mk_matrix_ext; intros a b Ha Hb; rewrite get_mk_matrix by assumption.
  reflexivity.
Qed.

Section Exact_arithmetic.

Hypothesis X : ExactLaws Num.

Lemma Cadd_0_r x : Cadd x C0 = x.
Proof. rewrite (Cadd_comm _ X); apply (Cadd_0_l _ X). Qed.

Lemma fold_left_csum l : forall x, fold_left Cadd l x = Cadd x (csum l).
Proof.
  induction l as [|y l IH]; intros x; simpl.
  - symmetry; apply Cadd_0_r.
  - rewrite IH; symmetry; apply (Cadd_assoc _ X).
Qed.

Lemma csum_app l l' : csum (l ++ l') = Cadd (csum l) (csum l').
Proof.
  induction l as [|y l IH]; simpl.
  - symmetry; apply (Cadd_0_l _ X).
  - rewrite IH; apply (Cadd_assoc _ X).
Qed.

Lemma Cconj_csum l : Cconj (csum l) = csum (map Cconj l).
Proof.
  induction l as [|y l IH]; simpl.
  - apply (Cconj_0 _ X).
  - rewrite (Cconj_add _ X), IH; reflexivity.
Qed.

Lemma csum_zero_terms (p : vec3 Z -> C) GL :
  csum (map (fun G => Cmul C0 (p G)) GL) = C0.
Proof.
  induction GL as [|G GL IH]; simpl; [reflexivity|].
  rewrite IH, (Cmul_0_l _ X); apply (Cadd_0_l _ X).
Qed.

(** Adding [t] to the bucket of [g], which occurs once in [GL], adds
    [t * p g] to the weighted sum of the buckets. *)
Lemma csum_bucket (u p : vec3 Z -> C) g t GL :
  NoDup GL -> In g GL ->
  csum (map (fun G => Cmul (if veqb G g then Cadd t (u G) else u G) (p G)) GL) =
  Cadd (Cmul t (p g)) (csum (map (fun G => Cmul (u G) (p G)) GL)).
Proof.
  induction GL as [|G0 GL IH]; intros ND Hin; [contradiction|].
  inversion ND as [|? ? Hnin ND']; subst; simpl.
  destruct (veqb G0 g) eqn:E.
  - apply veqb_eq in E; subst G0.
    rewrite (map_ext_in _ (fun G => Cmul (u G) (p G))).
    2:{ intros G HG; rewrite veqb_neq; [reflexivity | intros ->; contradiction]. }
    rewrite (Cmul_add_distr_r _ X); symmetry; apply (Cadd_assoc _ X).
  - destruct Hin as [->|Hin]; [rewrite veqb_refl in E; discriminate|].
    rewrite (IH ND' Hin).
    rewrite !(Cadd_assoc _ X); f_equal; apply (Cadd_comm _ X).
Qed.

(** Summing bucket by bucket over the distinct [G] equals summing the
    stored terms of the entry one by one. *)
Lemma regroup_by_G k a b GL : NoDup GL ->
  forall hops, (forall h, In h hops -> In (hop_G h) GL) ->
  csum (map (fun G => Cmul (csum (map hop_t (filter (hop_matches a b G) hops)))
                           (phase G k)) GL) =
  csum (map (hop_weight k) (filter (hop_at a b) hops)).
Proof.
  intros ND; induction hops as [|h hops IH]; intros Hin.
  - simpl; apply csum_zero_terms.
  - assert (Hin' : forall h', In h' hops -> In (hop_G h') GL)
      by (intros; apply Hin; right; assumption).
    pose proof (Hin h (or_introl eq_refl)) as Hg.
    destruct h as [[[i0 i1] g] t]; cbn [hop_G] in Hg.
    cbn [filter hop_matches hop_at].
    destruct ((i0 =? Z.of_nat a) && (i1 =? Z.of_nat b)); cbn [andb].
    + rewrite (map_ext _ (fun G => Cmul
                 (if veqb G g
                  then Cadd t (csum (map hop_t (filter (hop_matches a b G) hops)))
                  else csum (map hop_t (filter (hop_matches a b G) hops)))
                 (phase G k)))
        by (intros G; destruct (veqb G g); reflexivity).
      rewrite (csum_bucket _ (fun G => phase G k) g t GL ND Hg), (IH Hin').
      reflexivity.
    + apply (IH Hin').
Qed.

Lemma weight_conj_hop k h : hop_weight k (conj_hop h) = Cconj (hop_weight k h).
Proof.
  destruct h as [[[i0 i1] G] t]; unfold hop_weight; simpl.
  rewrite (Cconj_mul _ X), (phase_conj _ X); reflexivity.
Qed.

Lemma conj_hop_invol h : conj_hop (conj_hop h) = h.
Proof.
  destruct h as [[[i0 i1] G] t]; simpl.
  rewrite vneg_invol, (Cconj_invol _ X); reflexivity.
Qed.

Lemma filter_conj_hop k a b hops :
  map (hop_weight k) (filter (hop_at a b) (map conj_hop hops)) =
  map Cconj (map (hop_weight k) (filter (hop_at b a) hops)).
Proof.
  induction hops as [|h hops IH]; simpl; [reflexivity|].
  replace (hop_at a b (conj_hop h)) with (hop_at b a h)
    by (destruct h as [[[i0 i1] G] t]; simpl; apply andb_comm).
  destruct (hop_at b a h); simpl; rewrite IH; [rewrite weight_conj_hop|]; reflexivity.
Qed.

(** Entry [(a, b)] of the Bloch sum: the on-site entry plus the weights of
    the stored terms of that entry. *)
Lemma bloch_entry k a b (d : C) GL hops : NoDup GL ->
  (forall h, In h hops -> In (hop_G h) GL) ->
  fold_left (fun x G =>
     Cadd x (Cmul (fold_left Cadd (map hop_t (filter (hop_matches a b G) hops)) C0)
                  (phase G k))) GL d =
  Cadd d (csum (map (hop_weight k) (filter (hop_at a b) hops))).
Proof.
  intros ND Hin.
  rewrite <- (fold_left_map Cadd
                (fun G => Cmul (fold_left Cadd
                   (map hop_t (filter (hop_matches a b G) hops)) C0) (phase G k)) GL d).
  rewrite fold_left_csum; f_equal.
  rewrite <- (regroup_by_G k a b GL ND hops Hin).
  f_equal; apply map_ext; intros G.
  rewrite fold_left_csum, (Cadd_0_l _ X); reflexivity.
Qed.

Lemma hermitian_entry k a b (d d' : C) GL hops : NoDup GL ->
  (forall h, In h (hops ++ map conj_hop hops) -> In (hop_G h) GL) ->
  Cconj d' = d ->
  Cconj (fold_left (fun x G =>
     Cadd x (Cmul (fold_left Cadd (map hop_t
                     (filter (hop_matches b a G) (hops ++ map conj_hop hops))) C0)
                  (phase G k))) GL d') =
  fold_left (fun x G =>
     Cadd x (Cmul (fold_left Cadd (map hop_t
                     (filter (hop_matches a b G) (hops ++ map conj_hop hops))) C0)
                  (phase G k))) GL d.
Proof.
  intros ND Hin Hd.
  rewrite !(bloch_entry k _ _ _ GL _ ND Hin).
  rewrite (Cconj_add _ X), Hd; f_equal.
  rewrite Cconj_csum, <- filter_conj_hop.
  rewrite map_app, map_map, (map_ext _ (fun h => h) conj_hop_invol), map_id.
  rewrite !filter_app, !map_app, !csum_app; apply (Cadd_comm _ X).
Qed.

End Exact_arithmetic.

Lemma hop_in_range_conj n h : hop_in_range n (conj_hop h) = hop_in_range n h.
Proof.
  destruct h as [[[i0 i1] G] t]; simpl.
  destruct (0 <=? i0), (i0 <? Z.of_nat n), (0 <=? i1), (i1 <? Z.of_nat n); reflexivity.
Qed.


End Theory.

(** * The exact instance: laws and concrete runs *)

Lemma exact_set_order_laws : SetOrderLaws Exact.num.
Proof.
  split; intros; cbn [set_order Exact.num].
  - apply NoDup_nodup.
  - apply nodup_In.
Qed.


Lemma G_not_found_unreachable_witness :
  observe (hamilton Exact.two_site (1, 2, 3)) <> inl (ValueError G_not_found).
Proof.
  apply (G_not_found_unreachable exact_set_order_laws Exact.two_site (1, 2, 3)).
  reflexivity.
Defined.

Lemma hamilton_independent_of_pos_witness :
  observe (hamilton Exact.two_site (1, 2, 3)) =
  observe (hamilton Exact.two_site_moved (1, 2, 3)).
Proof.
  apply (hamilton_independent_of_pos (Num := Exact.num)
           [Exact.Qc_of_Z 0; Exact.Qc_of_Z 0] Exact.two_site_hop
           None true None None (Some [Exact.origin; Exact.unit_x]));
    reflexivity.
Defined.

(** C1: [hamilton], [add_hop], [hamilton] on the two-orbital model without
    hopping: the second call still returns the zero matrix, while a rebuild
    from the current hopping list has the new term in entry (0, 1). *)
Lemma add_hop_after_hamilton_is_stale :
  exists H0 m1,
    hamilton Exact.bare Exact.G0 = inr (H0, m1) /\
    _hop (add_hop m1 Exact.two_site_hop) = Exact.two_site_hop /\
    observe (hamilton (add_hop m1 Exact.two_site_hop) Exact.G0) = inr H0 /\
    get H0 0 1 = C0 /\
    exists H1,
      observe (hamilton_rebuild (add_hop m1 Exact.two_site_hop) Exact.G0) = inr H1 /\
      get H1 0 1 = Exact.cx_of_Z 1 0 /\ H1 <> H0.
Proof.
  eexists; eexists; split; [reflexivity|].
  split; [reflexivity|]. split; [reflexivity|]. split; [reflexivity|].
  eexists; split; [reflexivity|]. split; [reflexivity|].
  intros E.
  apply (f_equal (fun M => Qnum (this (fst (@get Exact.num M 0 1 : Exact.Cx))))) in E.
  vm_compute in E; discriminate E.
Qed.

Lemma Qc_of_Z_opp z : (- Exact.Qc_of_Z z)%Qc = Exact.Qc_of_Z (- z).
Proof.
  apply Qc_is_canon; unfold Exact.Qc_of_Z, Qcopp, Q2Qc; cbn [this].
  rewrite !Qred_correct; reflexivity.
Qed.

Lemma dotZ_vneg G k : Exact.dotZ (vneg G) k = - Exact.dotZ G k.
Proof.
  destruct G as [[a b] c], k as [[x y] z]; unfold Exact.dotZ, vneg; simpl; lia.
Qed.

Lemma i_pow_conj x : Exact.cx_conj (Exact.i_pow (x mod 4)) = Exact.i_pow (- x mod 4).
Proof.
  assert (H : (x mod 4 = 0 /\ - x mod 4 = 0) \/ (x mod 4 = 1 /\ - x mod 4 = 3) \/
              (x mod 4 = 2 /\ - x mod 4 = 2) \/ (x mod 4 = 3 /\ - x mod 4 = 1))
    by (Z.div_mod_to_equations; lia).
  destruct H as [[-> ->]|[[-> ->]|[[-> ->]|[-> ->]]]];
    unfold Exact.i_pow, Exact.cx_conj, Exact.cx_of_Z; simpl;
    rewrite Qc_of_Z_opp; reflexivity.
Qed.

Lemma exact_laws : ExactLaws Exact.num.
Proof.
  split; cbn [C Cadd Cmul Cconj C0 C_of_F F K phase Exact.num].
  - intros [a b] [c d]; unfold Exact.cx_add; simpl; f_equal; ring.
  - intros [a b] [c d] [e f]; unfold Exact.cx_add; simpl; f_equal; ring.
  - intros [a b]; unfold Exact.cx_add, Exact.cx_of_Z; simpl.
    f_equal; change (Exact.Qc_of_Z 0) with 0%Qc; ring.
  - intros [a b]; unfold Exact.cx_mul, Exact.cx_of_Z; simpl.
    f_equal; change (Exact.Qc_of_Z 0) with 0%Qc; ring.
  - intros [a b] [c d] [e f]; unfold Exact.cx_add, Exact.cx_mul; simpl; f_equal; ring.
  - intros [a b] [c d]; unfold Exact.cx_add, Exact.cx_conj; simpl; f_equal; ring.
  - intros [a b] [c d]; unfold Exact.cx_mul, Exact.cx_conj; simpl; f_equal; ring.
  - intros [a b]; unfold Exact.cx_conj; simpl; f_equal; ring.
  - unfold Exact.cx_conj, Exact.cx_of_Z; simpl; rewrite Qc_of_Z_opp; reflexivity.
  - intros x; unfold Exact.cx_conj; simpl; rewrite Qc_of_Z_opp; reflexivity.
  - intros G k; unfold Exact.quarter_phase; rewrite dotZ_vneg; apply i_pow_conj.
Qed.

Lemma exact_identity_laws : IdentityLaws Exact.num.
Proof.
  split.
  - reflexivity.
  - intros [[p0 p1] p2].
    cbv [la_solve Exact.num eye3 F0 F1 Exact.solve3 Exact.det3].
    change (Exact.Qc_of_Z 0) with 0%Qc; change (Exact.Qc_of_Z 1) with 1%Qc.
    cbv [F Exact.num] in p0, p1, p2.
    apply f_equal2; [apply f_equal2|]; field; discriminate.
Qed.



(** C2: at [dim = [2, 1, 1]], sub-cell [(0, 0, 0)] and a stored term with
    [G = (-1, 0, 0)] (all directions periodic) the emitted term has
    [new_G = (0, 0, 0)] and destination cell [(1, 0, 0)]:
    [new_G * dim + destination] is [(1, 0, 0)], not [uc0 + G = (-1, 0, 0)]. *)
Lemma supercell_negative_offset_not_recomposed :
  let dim := (2, 1, 1) in
  let uc0 := (0, 0, 0) in
  let G := (-1, 0, 0) in
  let t := Exact.cx_of_Z 1 0 in
  hop_is_cut (true, true, true) (vadd uc0 G) dim = false /\
  supercell_hop (Num := Exact.num) 1 dim (true, true, true) uc0 (0, 0, G, t) =
    inr (Some (0, 1, (0, 0, 0), t)) /\
  supercell_uc1_pos (vadd uc0 G) dim = (1, 0, 0) /\
  supercell_new_G (vadd uc0 G) dim = (0, 0, 0) /\
  vadd (vmul (supercell_new_G (vadd uc0 G) dim) dim)
       (supercell_uc1_pos (vadd uc0 G) dim) = (1, 0, 0) /\
  vadd uc0 G = (-1, 0, 0).
Proof. repeat split. Qed.

(** C6: [trs] on the model without orbitals raises the [pos] length error
    of [__init__] instead of returning a model. *)
Lemma trs_no_orbital_raises :
  __init__ [] [] None None true None = inr Exact.no_orbital /\
  trs Exact.no_orbital = inl (ValueError invalid_pos).
Proof. split; reflexivity. Qed.

Lemma trs_doubles_two_site :
  exists m', trs Exact.two_site = inr m' /\
             length (_on_site m') = 4%nat /\ _occ m' = 2 /\
             _hop m' = _hop Exact.two_site ++ map (trs_mirror 2) (_hop Exact.two_site).
Proof.
  destruct (trs_doubles Exact.two_site) as (m' & E & _ & _ & Hl & Ho & Hh & _);
    [reflexivity | discriminate |].
  exists m'; auto.
Qed.

(** C7, as stated, fails: the identity has determinant exactly 1, yet
    [change_uc] on a model whose term points at a missing orbital raises
    [IndexError] and returns no model. *)
Lemma change_uc_dangling_index :
  @Feq1 Exact.num (la_det eye3) = true /\
  change_uc Exact.dangling eye3 = inl IndexError /\
  ~ exists m', change_uc Exact.dangling eye3 = inr m'.
Proof.
  split; [reflexivity|]; split; [reflexivity|].
  intros [m' E]; discriminate E.
Qed.

Lemma change_uc_determinant_check_witness :
  change_uc Exact.two_site Exact.double_x =
    inl (ValueError (det_not_one (@la_det Exact.num Exact.double_x))) /\
  Feq1 (@la_det Exact.num Exact.double_x) = false /\
  this (@la_det Exact.num Exact.double_x) = 2%Q /\
  exists m', change_uc Exact.two_site eye3 = inr m' /\
             _on_site m' = _on_site Exact.two_site /\
             _occ m' = _occ Exact.two_site /\
             length (_hop m') = length (_hop Exact.two_site).
Proof.
  split; [|split; [reflexivity | split; [reflexivity|]]].
  - apply (proj1 (proj2 (change_uc_determinant_check Exact.two_site Exact.double_x)));
      reflexivity.
  - apply (proj2 (proj2 (change_uc_determinant_check Exact.two_site eye3)));
      reflexivity.
Defined.

(** C8, as stated, fails: with the second orbital one cell further along x,
    [change_uc] with the identity moves it back into the home cell and
    shifts [G]; at [k = (1/2, 0, 0)] the new model's entry [(0, 1)] is [-1]
    where the original has [1]. *)
Lemma change_uc_identity_moved_orbital :
  exists m' H H',
    change_uc Exact.two_site_moved eye3 = inr m' /\
    observe (hamilton Exact.two_site_moved Exact.k_half_x) = inr H /\
    observe (hamilton m' Exact.k_half_x) = inr H' /\
    get H 0 1 = Exact.cx_of_Z 1 0 /\
    get H' 0 1 = Exact.cx_of_Z (-1) 0 /\
    observe (hamilton m' Exact.k_half_x) <>
    observe (hamilton Exact.two_site_moved Exact.k_half_x).
Proof.
  eexists; eexists; eexists.
  split; [reflexivity|]. split; [reflexivity|]. split; [reflexivity|].
  split; [reflexivity|]. split; [reflexivity|].
  intros E.
  apply (f_equal (fun r : result Matrix =>
                    match r with
                    | inr M => Qnum (this (fst (@get Exact.num M 0 1 : Exact.Cx)))
                    | inl _ => 0
                    end)) in E.
  vm_compute in E; discriminate E.
Qed.

Lemma change_uc_identity_witness :
  exists m',
    change_uc Exact.two_site eye3 = inr m' /\
    forall k, observe (hamilton m' k) = observe (hamilton Exact.two_site k).
Proof.
  apply (change_uc_identity exact_identity_laws Exact.two_site).
  - reflexivity.
  - intros U; discriminate U.
  - reflexivity.
Defined.

(** * Further properties of the model *)

Section Hamiltonian_cache.

Context {Num : Numeric}.

(** X1: after a successful [hamilton] call the cache is marked valid: any
    further call leaves the object as it is, and asking again for the same
    [k] gives the same matrix. *)
Theorem hamilton_repeatable (m m' : Model) (k : K) (H : Matrix) :
  hamilton m k = inr (H, m') ->
  hamilton m' k = inr (H, m') /\
  forall k', exists H', hamilton m' k' = inr (H', m').
Proof.
  intros E.
  assert (S : _unchanged m' = true /\
              exists c, _cache m' = Some c /\ H = bloch_sum c k).
  { unfold hamilton, _precompute in E.
    destruct (_unchanged m) eqn:U; simpl in E.
    - destruct (_cache m) as [c|] eqn:Cm; [|discriminate].
      injection E as <- <-; split; [exact U | exists c; auto].
    - destruct (build_cache (_on_site m) (_hop m)) as [e|c]; simpl in E; [discriminate|].
      injection E as <- <-; split; [reflexivity | exists c; auto]. }
  destruct S as [U (c & Hc & ->)]; unfold hamilton; rewrite U; simpl; rewrite Hc.
  split; [reflexivity | intros k'; eexists; reflexivity].
Qed.

Lemma py_index_invalid n i :
  ~ (- Z.of_nat n <= i < Z.of_nat n) -> py_index n i = None.
Proof.
  intros H; unfold py_index.
  destruct (Z.leb_spec 0 i), (Z.ltb_spec i (Z.of_nat n)); simpl; try lia;
    destruct (Z.leb_spec (- Z.of_nat n) i), (Z.ltb_spec i 0); simpl; try lia;
    reflexivity.
Qed.

Lemma accumulate_hop_valid n GL parts h :
  In (hop_G h) GL -> hop_index_valid n h = true ->
  exists parts', accumulate_hop n GL parts h = inr parts'.
Proof.
  destruct h as [[[i0 i1] G] t]; intros Hg Hv.
  destruct (index_of_In G GL Hg) as [i Hi].
  destruct (hop_index_valid_spec _ _ _ _ _ Hv) as [H0 H1].
  destruct (py_index_valid _ _ H0) as [a [Ea _]].
  destruct (py_index_valid _ _ H1) as [b [Eb _]].
  unfold accumulate_hop; rewrite Hi, Ea, Eb; eexists; reflexivity.
Qed.

Lemma accumulate_hop_invalid n GL parts h :
  In (hop_G h) GL -> hop_index_valid n h = false ->
  accumulate_hop n GL parts h = inl IndexError.
Proof.
  destruct h as [[[i0 i1] G] t]; intros Hg Hv.
  destruct (index_of_In G GL Hg) as [i Hi].
  unfold accumulate_hop; rewrite Hi.
  unfold hop_index_valid in Hv.
  destruct (py_index n i0) as [a|] eqn:E0; [|reflexivity].
  destruct (py_index n i1) as [b|] eqn:E1; [|reflexivity].
  exfalso.
  assert (H0 : - Z.of_nat n <= i0 < Z.of_nat n).
  { destruct (Z_le_dec (- Z.of_nat n) i0), (Z_lt_dec i0 (Z.of_nat n)); try lia;
      rewrite py_index_invalid in E0 by lia; discriminate. }
  assert (H1 : - Z.of_nat n <= i1 < Z.of_nat n).
  { destruct (Z_le_dec (- Z.of_nat n) i1), (Z_lt_dec i1 (Z.of_nat n)); try lia;
      rewrite py_index_invalid in E1 by lia; discriminate. }
  rewrite !andb_false_iff, !Z.leb_gt, !Z.ltb_ge in Hv; lia.
Qed.

Lemma foldM_accumulate_validation n GL hops :
  (forall h, In h hops -> In (hop_G h) GL) ->
  forall parts,
  if forallb (hop_index_valid n) hops
  then exists parts', foldM (accumulate_hop n GL) hops parts = inr parts'
  else foldM (accumulate_hop n GL) hops parts = inl IndexError.
Proof.
  induction hops as [|h hops IH]; intros Hin parts; simpl.
  - eexists; reflexivity.
  - pose proof (Hin h (or_introl eq_refl)) as Hg.
    destruct (hop_index_valid n h) eqn:Hv; simpl.
    + destruct (accumulate_hop_valid n GL parts h Hg Hv) as [parts' ->]; simpl.
      apply IH; intros; apply Hin; right; assumption.
    + rewrite (accumulate_hop_invalid n GL parts h Hg Hv); reflexivity.
Qed.


Lemma py_index_negative n i :
  - Z.of_nat n <= i < 0 -> py_index n i = Some (Z.to_nat (i + Z.of_nat n)).
Proof.
  intros H; unfold py_index.
  destruct (Z.leb_spec 0 i); [lia|]; simpl.
  destruct (Z.leb_spec (- Z.of_nat n) i); [|lia].
  destruct (Z.ltb_spec i 0); [reflexivity | lia].
Qed.

Lemma py_index_wrap n i :
  - Z.of_nat n <= i < Z.of_nat n -> py_index n (wrap_index n i) = py_index n i.
Proof.
  intros H; unfold wrap_index.
  destruct (Z.ltb_spec i 0) as [Hn|Hn]; [|reflexivity].
  rewrite (py_index_negative n i) by lia.
  apply py_index_in_range; lia.
Qed.

Lemma foldM_ext {A S} (f g : S -> A -> result S) l :
  (forall s a, In a l -> f s a = g s a) ->
  forall s, foldM f l s = foldM g l s.
Proof.
  induction l as [|a l IH]; intros H s; simpl; [reflexivity|].
  rewrite (H s a (or_introl eq_refl)).
  destruct (g s a); simpl; [reflexivity|].
  apply IH; intros; apply H; right; assumption.
Qed.

Lemma foldM_map {A B S} (f : S -> B -> result S) (g : A -> B) l : forall s,
  foldM f (map g l) s = foldM (fun s a => f s (g a)) l s.
Proof.
  induction l as [|a l IH]; intros s; simpl; [reflexivity|].
  destruct (f s (g a)); simpl; [reflexivity | apply IH].
Qed.

Lemma build_cache_wrap on_site hops :
  forallb (hop_index_valid (length on_site)) hops = true ->
  build_cache on_site (map (wrap_hop (length on_site)) hops) =
  build_cache on_site hops.
Proof.
  intros Hv; unfold build_cache.
  assert (HG : map hop_G (map (wrap_hop (length on_site)) hops) = map hop_G hops).
  { rewrite map_map; apply map_ext; intros [[[i0 i1] G] t]; reflexivity. }
  rewrite HG, foldM_map.
  rewrite (foldM_ext _ (accumulate_hop (length on_site) (set_order (map hop_G hops))));
    [reflexivity|].
  intros parts [[[i0 i1] G] t] Hin.
  rewrite forallb_forall in Hv; specialize (Hv _ Hin).
  apply hop_index_valid_spec in Hv as [H0 H1].
  unfold accumulate_hop, wrap_hop.
  rewrite (py_index_wrap _ _ H0), (py_index_wrap _ _ H1); reflexivity.
Qed.

Lemma wrap_conj_hop n h : wrap_hop n (conj_hop h) = conj_hop (wrap_hop n h).
Proof. destruct h as [[[i0 i1] G] t]; reflexivity. Qed.

Lemma hop_index_valid_conj n h : hop_index_valid n (conj_hop h) = hop_index_valid n h.
Proof.
  destruct h as [[[i0 i1] G] t]; simpl.
  destruct (- Z.of_nat n <=? i0), (i0 <? Z.of_nat n),
           (- Z.of_nat n <=? i1), (i1 <? Z.of_nat n); reflexivity.
Qed.

(** X3: a negative orbital index is an alias of the index counted from the
    end: building the model with every valid index [i < 0] replaced by
    [i + N] gives the same [hamilton(k)]. *)
Theorem hamilton_negative_index_alias on_site hops pos occ add_cc uc m1 m2 k :
  forallb (hop_index_valid (length on_site)) hops = true ->
  __init__ on_site hops pos occ add_cc uc = inr m1 ->
  __init__ on_site (map (wrap_hop (length on_site)) hops) pos occ add_cc uc = inr m2 ->
  observe (hamilton m1 k) = observe (hamilton m2 k).
Proof.
  intros Hv E1 E2.
  destruct (init_fields _ _ _ _ _ _ _ E1) as (S1 & H1 & _ & _ & U1 & _).
  destruct (init_fields _ _ _ _ _ _ _ E2) as (S2 & H2 & _ & _ & U2 & _).
  rewrite (observe_hamilton_fresh _ _ U1), (observe_hamilton_fresh _ _ U2).
  rewrite S1, S2, H1, H2.
  replace (if add_cc
           then map (wrap_hop (length on_site)) hops ++
                map conj_hop (map (wrap_hop (length on_site)) hops)
           else map (wrap_hop (length on_site)) hops)
    with (map (wrap_hop (length on_site))
              (if add_cc then hops ++ map conj_hop hops else hops)).
  2:{ destruct add_cc; [|reflexivity].
      rewrite map_app, !map_map; f_equal; apply map_ext; intros h.
      apply wrap_conj_hop. }
  rewrite build_cache_wrap; [reflexivity|].
  destruct add_cc; [|exact Hv].
  rewrite forallb_app, Hv; simpl.
  rewrite forallb_forall in *; intros h Hh.
  apply in_map_iff in Hh as [h0 [<- Hh0]].
  rewrite hop_index_valid_conj; apply Hv; exact Hh0.
Qed.


(** X5: assigning [_hop] (through [__setattr__]) does invalidate the
    cache: whatever the cache held, the next [hamilton] is the one computed
    from the assigned list. *)
Theorem setattr_hop_invalidates (m : Model) (v : list Hop) (k : K) :
  observe (hamilton (setattr_hop m v) k) =
  observe (hamilton_rebuild (setattr_hop m v) k) /\
  forall c, observe (hamilton (setattr_hop m v) k) =
            observe (hamilton (mkModel (_uc m) (_on_site m) (_pos m) v (_occ m)
                                       false c) k).
Proof.
  split.
  - apply hamilton_refines_rebuild; intros U; discriminate U.
  - intros c; rewrite !observe_hamilton_fresh by reflexivity; reflexivity.
Qed.

End Hamiltonian_cache.

Section Construction_and_size.

Context {Num : Numeric}.

(** X6: [size()] of a freshly built model: as many orbitals as on-site
    energies, twice the supplied terms with [add_cc] (once without), and the
    given occupation or, by default, half the orbitals rounded down. *)
Theorem size_after_init on_site hops pos occ_arg add_cc uc (m : Model) :
  __init__ on_site hops pos occ_arg add_cc uc = inr m ->
  orbitals (size m) = length on_site /\
  hop (size m) = ((if add_cc then 2 else 1) * length hops)%nat /\
  occ (size m) = match occ_arg with
                 | Some o => o
                 | None => Z.of_nat (length on_site / 2)
                 end.
Proof.
  intros E; destruct (init_fields _ _ _ _ _ _ _ E) as (S & H & O & _).
  unfold size; cbn [orbitals hop occ]; rewrite S, H, O.
  split; [reflexivity|]; split.
  - destruct add_cc; [rewrite length_app, length_map|]; lia.
  - destruct occ_arg; [reflexivity|].
    rewrite Nat2Z.inj_div; reflexivity.
Qed.


Lemma supercell_init m dim periodic passivation m' :
  supercell m dim periodic passivation = inr m' ->
  exists on_site hops pos occ uc, __init__ on_site hops pos occ false uc = inr m'.
Proof.
  unfold supercell; destruct dim as [[d0 d1] d2]; intros E.
  destruct (supercell_hops _ _ _ _); simpl in E; [discriminate|].
  destruct (supercell_on_site _ _ _); simpl in E; [discriminate|].
  do 5 eexists; exact E.
Qed.

Lemma trs_init m m' :
  trs m = inr m' ->
  exists on_site hops pos occ uc, __init__ on_site hops pos occ false uc = inr m'.
Proof.
  unfold trs; intros E; destruct (_pos m); [discriminate|].
  do 5 eexists; exact E.
Qed.

Lemma change_uc_init m uc m' :
  change_uc m uc = inr m' ->
  exists on_site hops pos occ uc', __init__ on_site hops pos occ false uc' = inr m'.
Proof.
  unfold change_uc; intros E.
  destruct (negb _); [discriminate|].
  destruct (mapM _ _); simpl in E; [discriminate|].
  do 5 eexists; exact E.
Qed.

(** X8: every model returned by [supercell], [trs] or [change_uc] has one
    position per orbital and an invalid cache, so its first [hamilton] call
    rebuilds from its own terms; the original model is not involved. *)
Theorem derived_models_are_fresh (m m' : Model) :
  (exists dim periodic passivation, supercell m dim periodic passivation = inr m') \/
  trs m = inr m' \/
  (exists uc, change_uc m uc = inr m') ->
  class_inv m' /\ _unchanged m' = false /\ _cache m' = None.
Proof.
  intros H.
  assert (I : exists on_site hops pos occ uc,
             __init__ on_site hops pos occ false uc = inr m').
  { destruct H as [(dim & per & pv & E)|[E|(uc & E)]].
    - eapply supercell_init; exact E.
    - eapply trs_init; exact E.
    - eapply change_uc_init; exact E. }
  destruct I as (on_site & hops & pos & occ & uc & E).
  split; [eapply init_class_inv; exact E|].
  destruct (init_fields _ _ _ _ _ _ _ E) as (_ & _ & _ & _ & U & Cn & _); auto.
Qed.

End Construction_and_size.

Section Hermitian_transforms.

Context {Num : Numeric}.
Hypothesis L : SetOrderLaws Num.
Hypothesis X : ExactLaws Num.

Lemma csum_perm l l' : Permutation l l' -> csum l = csum l'.
Proof.
  induction 1 as [|x l l' _ IH|x y l|l l' l'' _ IH1 _ IH2]; simpl.
  - reflexivity.
  - rewrite IH; reflexivity.
  - rewrite !(Cadd_assoc _ X); f_equal; apply (Cadd_comm _ X).
  - congruence.
Qed.

Lemma filter_perm {A} (f : A -> bool) l l' :
  Permutation l l' -> Permutation (filter f l) (filter f l').
Proof.
  induction 1 as [|x l l' _ IH|x y l|l l' l'' _ IH1 _ IH2]; simpl.
  - constructor.
  - destruct (f x); [constructor|]; exact IH.
  - destruct (f x), (f y); try reflexivity; constructor.
  - eapply perm_trans; eassumption.
Qed.

(** Entry [(a, b)] of the Bloch sum built from in-range terms. *)
Lemma get_bloch_spec on_site hops k a b :
  (a < length on_site)%nat -> (b < length on_site)%nat ->
  get (bloch_spec on_site hops k) a b =
  Cadd (if Nat.eqb a b then C_of_F (nth a on_site F0) else C_of_F F0)
       (csum (map (hop_weight k) (filter (hop_at a b) hops))).
Proof.
  intros Ha Hb; unfold bloch_spec, M_G, np_diag.
  rewrite fold_left_mk_matrix, get_mk_matrix by assumption.
  apply (bloch_entry X k a b _ _ hops (set_order_NoDup _ L _)).
  intros h Hh; apply (set_order_In _ L), in_map; exact Hh.
Qed.

Lemma bloch_spec_shape on_site hops k :
  bloch_spec on_site hops k =
  mk_matrix (length on_site) (get (bloch_spec on_site hops k)).
Proof.
  unfold bloch_spec at 1, M_G, np_diag; rewrite fold_left_mk_matrix.
  apply mk_matrix_ext; intros a b Ha Hb.
  unfold bloch_spec, M_G, np_diag.
  rewrite fold_left_mk_matrix, get_mk_matrix by assumption; reflexivity.
Qed.

Lemma bloch_spec_hermitian on_site hops k :
  conj_closed hops ->
  conj_transpose (bloch_spec on_site hops k) = bloch_spec on_site hops k.
Proof.
  intros Hc.
  etransitivity; [|symmetry; apply bloch_spec_shape].
  unfold conj_transpose.
  replace (length (bloch_spec on_site hops k)) with (length on_site)
    by (rewrite bloch_spec_shape, length_mk_matrix; reflexivity).
  apply mk_matrix_ext; intros a b Ha Hb.
  rewrite !get_bloch_spec by assumption.
  rewrite (Cconj_add _ X); f_equal.
  - rewrite (Nat.eqb_sym b a); destruct (Nat.eqb_spec a b) as [->|];
      apply (Cconj_of_F _ X).
  - rewrite (Cconj_csum X), <- (filter_conj_hop X).
    apply csum_perm, Permutation_map, filter_perm; exact Hc.
Qed.


Lemma conj_closed_add_cc hops : conj_closed (hops ++ map conj_hop hops).
Proof.
  unfold conj_closed; rewrite map_app, map_map.
  rewrite (map_ext _ (fun h => h) (conj_hop_invol X)), map_id.
  apply Permutation_app_comm.
Qed.

(** *** [change_uc] *)

Lemma change_uc_hop_shift offs h h' :
  change_uc_hop offs h = inr h' -> h' = shift_hop offs h.
Proof.
  destruct h as [[[i0 i1] G] t]; unfold change_uc_hop, shift_hop, offset_at.
  destruct (list_item offs i1); simpl; [discriminate|].
  destruct (list_item offs i0); simpl; [discriminate|].
  intros [= <-]; reflexivity.
Qed.

Lemma mapM_change_uc_hop offs hops new_hop :
  mapM (change_uc_hop offs) hops = inr new_hop ->
  new_hop = map (shift_hop offs) hops.
Proof.
  revert new_hop; induction hops as [|h hops IH]; simpl; intros new_hop E.
  - injection E as <-; reflexivity.
  - destruct (change_uc_hop offs h) as [|h'] eqn:Eh; simpl in E; [discriminate|].
    destruct (mapM (change_uc_hop offs) hops); simpl in E; [discriminate|].
    injection E as <-; rewrite (change_uc_hop_shift _ _ _ Eh), (IH _ eq_refl).
    reflexivity.
Qed.

Lemma shift_conj_hop offs h : shift_hop offs (conj_hop h) = conj_hop (shift_hop offs h).
Proof.
  destruct h as [[[i0 i1] G] t]; unfold shift_hop, conj_hop.
  destruct (offset_at offs i0) as [[x0 y0] z0], (offset_at offs i1) as [[x1 y1] z1].
  destruct G as [[g0 g1] g2]; unfold vsub, vadd, vneg; simpl.
  repeat (f_equal; try lia).
Qed.

Lemma hop_in_range_shift n offs h : hop_in_range n (shift_hop offs h) = hop_in_range n h.
Proof. destruct h as [[[i0 i1] G] t]; reflexivity. Qed.

(** What [change_uc] returns: same on-site energies and occupation, and
    each stored term with its [G] shifted by the cell offsets of its two
    orbitals. *)
Lemma change_uc_fields m uc m' :
  change_uc m uc = inr m' ->
  _on_site m' = _on_site m /\ _occ m' = _occ m /\
  _hop m' = map (shift_hop (map (vmap Ffloor) (map (la_solve uc) (_pos m)))) (_hop m).
Proof.
  intros E; destruct (Feq1 (la_det uc)) eqn:D.
  - rewrite (change_uc_det_one _ _ D) in E.
    destruct (mapM _ (_hop m)) as [|new_hop] eqn:M; simpl in E; [discriminate|].
    destruct (init_fields _ _ _ _ _ _ _ E) as (S & H & O & _).
    rewrite (mapM_change_uc_hop _ _ _ M) in H; auto.
  - unfold change_uc in E; rewrite D in E; discriminate E.
Qed.


End Hermitian_transforms.

Section Time_reversal.

Context {Num : Numeric}.
Hypothesis L : SetOrderLaws Num.
Hypothesis X : ExactLaws Num.

Lemma filter_nil {A} (f : A -> bool) l :
  (forall x, In x l -> f x = false) -> filter f l = [].
Proof.
  induction l as [|x l IH]; intros H; simpl; [reflexivity|].
  rewrite (H x (or_introl eq_refl)); apply IH; intros; apply H; right; assumption.
Qed.

Lemma hop_in_range_mono n n' h :
  (n <= n')%nat -> hop_in_range n h = true -> hop_in_range n' h = true.
Proof.
  destruct h as [[[i0 i1] G] t]; intros Hn Hr.
  apply hop_in_range_spec in Hr; unfold hop_in_range.
  rewrite !andb_true_iff, !Z.leb_le, !Z.ltb_lt; lia.
Qed.

Lemma hop_in_range_mirror n h :
  hop_in_range n h = true -> hop_in_range (n + n) (trs_mirror n h) = true.
Proof.
  destruct h as [[[i0 i1] G] t]; intros Hr.
  apply hop_in_range_spec in Hr; unfold hop_in_range, trs_mirror.
  rewrite !andb_true_iff, !Z.leb_le, !Z.ltb_lt; lia.
Qed.

Lemma trs_hops_in_range n hops :
  forallb (hop_in_range n) hops = true ->
  forallb (hop_in_range (n + n)) (hops ++ map (trs_mirror n) hops) = true.
Proof.
  intros Hr; rewrite forallb_app, andb_true_iff; rewrite forallb_forall in Hr.
  split; apply forallb_forall; intros h Hh.
  - apply (hop_in_range_mono n); [lia | auto].
  - apply in_map_iff in Hh as [h0 [<- Hh0]]; apply hop_in_range_mirror; auto.
Qed.

Lemma mirror_conj_hop n h : trs_mirror n (conj_hop h) = conj_hop (trs_mirror n h).
Proof.
  destruct h as [[[i0 i1] G] t]; unfold trs_mirror, conj_hop.
  rewrite vneg_invol; reflexivity.
Qed.

Lemma trs_conj_closed n hops :
  conj_closed hops -> conj_closed (hops ++ map (trs_mirror n) hops).
Proof.
  unfold conj_closed; intros Hc; rewrite map_app, map_map.
  apply Permutation_app; [exact Hc|].
  rewrite (map_ext _ (fun h => trs_mirror n (conj_hop h))
             (fun h => eq_sym (mirror_conj_hop n h))).
  rewrite <- (map_map conj_hop (trs_mirror n)).
  apply Permutation_map; exact Hc.
Qed.

(** X11: for a model with at least one orbital, [size()] of [trs()] is
    twice the original in every field. *)
Theorem trs_size (m : Model) :
  class_inv m -> _pos m <> [] ->
  exists m', trs m = inr m' /\
             orbitals (size m') = (2 * orbitals (size m))%nat /\
             hop (size m') = (2 * hop (size m))%nat /\
             occ (size m') = 2 * occ (size m).
Proof.
  intros Inv Hne.
  destruct (trs_doubles m Inv Hne) as (m' & E & _ & _ & Hl & Ho & Hh & _).
  exists m'; split; [exact E|]; unfold size; cbn [orbitals hop occ].
  rewrite Hl, Ho, Hh, length_app, length_map; repeat split; lia.
Qed.


Lemma hop_at_low_mirror n a b h :
  hop_in_range n h = true -> (a < n)%nat \/ (b < n)%nat ->
  hop_at a b (trs_mirror n h) = false.
Proof.
  destruct h as [[[i0 i1] G] t]; intros Hr Hab.
  apply hop_in_range_spec in Hr; unfold hop_at, trs_mirror.
  apply andb_false_iff; rewrite !Z.eqb_neq; lia.
Qed.

Lemma hop_at_high n a b h :
  hop_in_range n h = true -> (n <= a)%nat \/ (n <= b)%nat ->
  hop_at a b h = false.
Proof.
  destruct h as [[[i0 i1] G] t]; intros Hr Hab.
  apply hop_in_range_spec in Hr; unfold hop_at.
  apply andb_false_iff; rewrite !Z.eqb_neq; lia.
Qed.

Lemma hop_at_shifted_mirror n a b h :
  hop_at (a + n) (b + n) (trs_mirror n h) = hop_at b a h.
Proof.
  destruct h as [[[i0 i1] G] t]; unfold hop_at, trs_mirror.
  rewrite andb_comm; f_equal.
  - destruct (Z.eqb_spec (i0 + Z.of_nat n) (Z.of_nat (b + n))),
             (Z.eqb_spec i0 (Z.of_nat b)); lia.
  - destruct (Z.eqb_spec (i1 + Z.of_nat n) (Z.of_nat (a + n))),
             (Z.eqb_spec i1 (Z.of_nat a)); lia.
Qed.

Lemma weights_shifted_mirror k n a b hops :
  map (hop_weight k) (filter (hop_at (a + n) (b + n)) (map (trs_mirror n) hops)) =
  map (hop_weight k) (filter (hop_at b a) (map neg_G_hop hops)).
Proof.
  induction hops as [|h hops IH]; simpl; [reflexivity|].
  rewrite hop_at_shifted_mirror.
  replace (hop_at b a (neg_G_hop h)) with (hop_at b a h)
    by (destruct h as [[[i0 i1] G] t]; reflexivity).
  destruct (hop_at b a h); simpl; rewrite IH; [|reflexivity].
  f_equal; destruct h as [[[i0 i1] G] t]; reflexivity.
Qed.

(** Entries of the Bloch sum of the doubled term list. *)
Lemma trs_bloch_blocks on_site hops k a b :
  let n := length on_site in
  forallb (hop_in_range n) hops = true ->
  (a < n)%nat -> (b < n)%nat ->
  let H' := bloch_spec (on_site ++ on_site) (hops ++ map (trs_mirror n) hops) k in
  get H' a b = get (bloch_spec on_site hops k) a b /\
  get H' (a + n) (b + n) = get (bloch_spec on_site (map neg_G_hop hops) k) b a /\
  get H' a (b + n) = C_of_F F0 /\
  get H' (a + n) b = C_of_F F0.
Proof.
  intros n Hr Ha Hb H'; subst H'; rewrite forallb_forall in Hr.
  rewrite !(get_bloch_spec L X) by (rewrite ?length_app; fold n; lia).
  rewrite !filter_app, !map_app, !(csum_app X).
  repeat split.
  - rewrite (filter_nil (hop_at a b) (map (trs_mirror n) hops)).
    2:{ intros h Hh; apply in_map_iff in Hh as [h0 [<- Hh0]].
        apply hop_at_low_mirror; auto. }
    simpl; rewrite (Cadd_0_r X), app_nth1 by (fold n; lia); reflexivity.
  - rewrite (filter_nil (hop_at (a + n) (b + n)) hops)
      by (intros h Hh; apply (hop_at_high n); auto; lia).
    simpl; rewrite (Cadd_0_l _ X), weights_shifted_mirror.
    replace (Nat.eqb (a + n) (b + n)) with (Nat.eqb b a)
      by (destruct (Nat.eqb_spec (a + n) (b + n)), (Nat.eqb_spec b a); lia).
    destruct (Nat.eqb_spec b a) as [->|]; [|reflexivity].
    rewrite app_nth2 by (fold n; lia); fold n.
    replace (a + n - n)%nat with a by lia; reflexivity.
  - rewrite (filter_nil (hop_at a (b + n)) hops)
      by (intros h Hh; apply (hop_at_high n); auto; lia).
    rewrite (filter_nil (hop_at a (b + n)) (map (trs_mirror n) hops)).
    2:{ intros h Hh; apply in_map_iff in Hh as [h0 [<- Hh0]].
        apply hop_at_low_mirror; auto. }
    simpl; rewrite !(Cadd_0_r X).
    destruct (Nat.eqb_spec a (b + n)); [lia | reflexivity].
  - rewrite (filter_nil (hop_at (a + n) b) hops)
      by (intros h Hh; apply (hop_at_high n); auto; lia).
    rewrite (filter_nil (hop_at (a + n) b) (map (trs_mirror n) hops)).
    2:{ intros h Hh; apply in_map_iff in Hh as [h0 [<- Hh0]].
        apply hop_at_low_mirror; auto. }
    simpl; rewrite !(Cadd_0_r X).
    destruct (Nat.eqb_spec (a + n) b); [lia | reflexivity].
Qed.


End Time_reversal.

Section Supercell_structure.

Context {Num : Numeric}.

Lemma foldM_append {A B} (step : list B -> A -> result (list B)) (g : A -> list B) l :
  (forall acc a, In a l -> step acc a = inr (acc ++ g a)) ->
  forall acc, foldM step l acc = inr (acc ++ flat_map g l).
Proof.
  induction l as [|a l IH]; intros H acc; simpl.
  - rewrite app_nil_r; reflexivity.
  - rewrite (H acc a (or_introl eq_refl)); simpl.
    rewrite IH by (intros; apply H; right; assumption).
    rewrite app_assoc; reflexivity.
Qed.

Lemma supercell_hop_emit_hop n dx dy dz periodic c h :
  0 < dx -> 0 < dy -> 0 < dz -> In c (cells (dx, dy, dz)) ->
  forall acc,
  bind (supercell_hop n (dx, dy, dz) periodic c h)
       (fun r => ret (match r with
                      | Some h' => acc ++ [h']
                      | None => acc
                      end)) =
  inr (acc ++ emit_hop n (dx, dy, dz) periodic c h).
Proof.
  intros Hx Hy Hz Hc acc; destruct h as [[[i0 i1] G] t].
  destruct (supercell_hop_emits n dx dy dz periodic c i0 i1 G t Hx Hy Hz Hc)
    as (a & b & Ea & Eb & E).
  rewrite E; unfold emit_hop; cbn [bind ret].
  assert (Ha : a = lin_idx (dx, dy, dz) c).
  { unfold _pos_to_idx in Ea; rewrite (cell_in_bounds _ _ Hc) in Ea.
    destruct c as [[c0 c1] c2]; injection Ea as <-; reflexivity. }
  assert (Hb : b = lin_idx (dx, dy, dz)
                     (supercell_uc1_pos (vadd c G) (dx, dy, dz))).
  { unfold _pos_to_idx in Eb; rewrite (wrapped_in_bounds dx dy dz _ Hx Hy Hz) in Eb.
    destruct (supercell_uc1_pos (vadd c G) (dx, dy, dz)) as [[w0 w1] w2].
    injection Eb as <-; reflexivity. }
  subst a b.
  destruct (hop_is_cut periodic (vadd c G) (dx, dy, dz));
    [rewrite app_nil_r|]; reflexivity.
Qed.

(** The hopping list [supercell] builds, in closed form. *)
Lemma supercell_hops_flat_map n dx dy dz periodic hops :
  0 < dx -> 0 < dy -> 0 < dz ->
  supercell_hops n (dx, dy, dz) periodic hops =
  inr (flat_map (fun c => flat_map (emit_hop n (dx, dy, dz) periodic c) hops)
                (cells (dx, dy, dz))).
Proof.
  intros Hx Hy Hz; unfold supercell_hops.
  rewrite (foldM_append _
             (fun c => flat_map (emit_hop n (dx, dy, dz) periodic c) hops));
    [reflexivity|].
  intros acc c Hc.
  apply (foldM_append _ (emit_hop n (dx, dy, dz) periodic c)).
  intros acc' h _; apply supercell_hop_emit_hop; assumption.
Qed.

Lemma supercell_on_site_flat_map on_site dim (pv : Passivation) :
  (forall ex ey ez, length (pv ex ey ez) = length on_site) ->
  supercell_on_site on_site dim pv =
  inr (flat_map (cell_on_site on_site dim pv) (cells dim)).
Proof.
  intros Hpv; unfold supercell_on_site.
  apply (foldM_append _ (cell_on_site on_site dim pv)).
  intros acc c Hc; unfold _edge_detect_pos, cell_on_site, edges_of.
  rewrite (cell_in_bounds dim c Hc); cbn [bind ret].
  destruct (vmap2 _ c dim) as [[ex ey] ez].
  unfold iadd; rewrite Hpv, Nat.eqb_refl; reflexivity.
Qed.

Lemma length_cell_on_site on_site dim (pv : Passivation) c :
  (forall ex ey ez, length (pv ex ey ez) = length on_site) ->
  length (cell_on_site on_site dim pv c) = length on_site.
Proof.
  intros Hpv; unfold cell_on_site.
  destruct (edges_of dim c) as [[ex ey] ez].
  apply length_zip_with, Hpv.
Qed.

(** The model [supercell] returns for positive [dim] and the default
    passivation. *)
Lemma supercell_fields (m : Model) dx dy dz periodic :
  0 < dx -> 0 < dy -> 0 < dz -> class_inv m ->
  exists m',
    supercell m (dx, dy, dz) periodic None = inr m' /\
    _hop m' = flat_map (fun c => flat_map
                 (emit_hop (length (_on_site m)) (dx, dy, dz) periodic c) (_hop m))
                 (cells (dx, dy, dz)) /\
    _on_site m' = flat_map (cell_on_site (_on_site m) (dx, dy, dz)
                              (fun _ _ _ => repeat F0 (length (_on_site m))))
                           (cells (dx, dy, dz)) /\
    _pos m' = supercell_pos (_pos m) (dx, dy, dz) /\
    length (_on_site m') =
      (Z.to_nat dx * Z.to_nat dy * Z.to_nat dz * length (_on_site m))%nat /\
    _unchanged m' = false.
Proof.
  intros Hx Hy Hz Inv; unfold supercell.
  rewrite (supercell_hops_flat_map _ dx dy dz periodic (_hop m) Hx Hy Hz); cbn [bind].
  assert (Hpv : forall ex ey ez : Edges,
             length ((fun _ _ _ => repeat F0 (length (_on_site m))) ex ey ez) =
             length (_on_site m)) by (intros; apply repeat_length).
  rewrite (supercell_on_site_flat_map _ (dx, dy, dz) _ Hpv); cbn [bind].
  set (new_on_site := flat_map _ (cells (dx, dy, dz))).
  assert (Hl : length new_on_site =
               (Z.to_nat dx * Z.to_nat dy * Z.to_nat dz * length (_on_site m))%nat).
  { unfold new_on_site.
    rewrite (flat_map_constant_length (c := length (_on_site m))), length_cells;
      [reflexivity|].
    intros c _; apply length_cell_on_site, Hpv. }
  destruct (__init__ new_on_site _ _ _ false _) as [e|m'] eqn:E.
  - unfold __init__ in E.
    rewrite length_supercell_pos, length_cells, Inv, Hl, Nat.eqb_refl in E.
    discriminate E.
  - destruct (init_fields _ _ _ _ _ _ _ E) as (S & H & _ & _ & U & _ & _ & P).
    exists m'; repeat split; auto.
    rewrite S; exact Hl.
Qed.

End Supercell_structure.

Section Supercell_properties.

Context {Num : Numeric}.

Lemma length_flat_map_le {A B} (f : A -> list B) c l :
  (forall x, In x l -> (length (f x) <= c)%nat) ->
  (length (flat_map f l) <= length l * c)%nat.
Proof.
  induction l as [|x l IH]; intros H; simpl; [lia|].
  rewrite length_app.
  pose proof (H x (or_introl eq_refl)).
  specialize (IH (fun y Hy => H y (or_intror Hy))); lia.
Qed.

Lemma length_emit_hop n dim periodic c h :
  (length (emit_hop n dim periodic c h) <= 1)%nat /\
  (periodic = (true, true, true) -> length (emit_hop n dim periodic c h) = 1%nat).
Proof.
  destruct h as [[[i0 i1] G] t]; unfold emit_hop; split.
  - destruct (hop_is_cut _ _ _); simpl; lia.
  - intros ->; unfold hop_is_cut.
    destruct (outside_supercell (vadd c G) dim) as [[o0 o1] o2]; reflexivity.
Qed.

(** X14: [supercell] emits at most one term per stored term and sub-cell,
    and exactly one when every direction is periodic: the new model then
    has [dim.x * dim.y * dim.z * len(hop)] terms. *)
Theorem supercell_hop_count (m : Model) dx dy dz periodic :
  0 < dx -> 0 < dy -> 0 < dz -> class_inv m ->
  exists m',
    supercell m (dx, dy, dz) periodic None = inr m' /\
    Z.of_nat (hop (size m')) <= dx * dy * dz * Z.of_nat (hop (size m)) /\
    (periodic = (true, true, true) ->
     Z.of_nat (hop (size m')) = dx * dy * dz * Z.of_nat (hop (size m))).
Proof.
  intros Hx Hy Hz Inv.
  destruct (supercell_fields m dx dy dz periodic Hx Hy Hz Inv)
    as (m' & E & H & _).
  exists m'; split; [exact E|]; unfold size; cbn [hop]; rewrite H.
  set (n := length (_on_site m)).
  assert (P : Z.of_nat (length (cells (dx, dy, dz))) = dx * dy * dz)
    by (rewrite length_cells; lia).
  split.
  - pose proof (length_flat_map_le
                  (fun c => flat_map (emit_hop n (dx, dy, dz) periodic c) (_hop m))
                  (length (_hop m) * 1) (cells (dx, dy, dz))) as B.
    rewrite <- P; etransitivity; [apply inj_le, B|].
    + intros c _; apply length_flat_map_le; intros h _; apply length_emit_hop.
    + rewrite Nat2Z.inj_mul; lia.
  - intros ->.
    rewrite (flat_map_constant_length (c := (length (_hop m) * 1)%nat)).
    + rewrite Nat2Z.inj_mul, P; lia.
    + intros c _; apply flat_map_constant_length; intros h _.
      apply length_emit_hop; reflexivity.
Qed.

Lemma lin_idx_bounds dx dy dz c :
  In c (cells (dx, dy, dz)) -> 0 <= lin_idx (dx, dy, dz) c < dx * dy * dz.
Proof.
  destruct c as [[i j] k]; rewrite in_cells; intros (Hi & Hj & Hk).
  unfold lin_idx.
  assert (0 <= i * dy + j <= dx * dy - 1) by nia.
  split; [nia|].
  assert ((i * dy + j) * dz <= (dx * dy - 1) * dz) by nia.
  nia.
Qed.

Lemma wrapped_in_cells dx dy dz p :
  0 < dx -> 0 < dy -> 0 < dz ->
  In (supercell_uc1_pos p (dx, dy, dz)) (cells (dx, dy, dz)).
Proof.
  intros Hx Hy Hz; destruct p as [[a b] c]; unfold supercell_uc1_pos; simpl.
  apply in_cells.
  pose proof (Z.mod_pos_bound a dx Hx); pose proof (Z.mod_pos_bound b dy Hy);
    pose proof (Z.mod_pos_bound c dz Hz); lia.
Qed.

Lemma emit_hop_in_range n dx dy dz periodic c h h' :
  0 < dx -> 0 < dy -> 0 < dz -> In c (cells (dx, dy, dz)) ->
  hop_in_range n h = true ->
  In h' (emit_hop n (dx, dy, dz) periodic c h) ->
  hop_in_range (Z.to_nat dx * Z.to_nat dy * Z.to_nat dz * n) h' = true.
Proof.
  intros Hx Hy Hz Hc Hr; destruct h as [[[i0 i1] G] t]; unfold emit_hop.
  destruct (hop_is_cut _ _ _); [contradiction|].
  intros [<-|[]].
  apply hop_in_range_spec in Hr as [H0 H1].
  pose proof (lin_idx_bounds dx dy dz c Hc) as B0.
  pose proof (lin_idx_bounds dx dy dz _
                (wrapped_in_cells dx dy dz (vadd c G) Hx Hy Hz)) as B1.
  unfold hop_in_range; rewrite !andb_true_iff, !Z.leb_le, !Z.ltb_lt.
  rewrite !Nat2Z.inj_mul, !Z2Nat.id by lia.
  set (P := dx * dy * dz) in *.
  set (a := lin_idx (dx, dy, dz) c) in *.
  set (b := lin_idx (dx, dy, dz) (supercell_uc1_pos (vadd c G) (dx, dy, dz))) in *.
  assert (a * Z.of_nat n <= (P - 1) * Z.of_nat n) by nia.
  assert (b * Z.of_nat n <= (P - 1) * Z.of_nat n) by nia.
  nia.
Qed.

(** X15: [supercell] maps in-range terms to in-range terms of the enlarged
    orbital set, so [hamilton] on the supercell of a model with in-range
    terms returns a matrix. *)
Theorem supercell_preserves_index_range (L : SetOrderLaws Num)
    (m : Model) dx dy dz periodic (k : K) :
  0 < dx -> 0 < dy -> 0 < dz -> class_inv m ->
  forallb (hop_in_range (length (_on_site m))) (_hop m) = true ->
  exists m',
    supercell m (dx, dy, dz) periodic None = inr m' /\
    forallb (hop_in_range (length (_on_site m'))) (_hop m') = true /\
    observe (hamilton m' k) = inr (bloch_spec (_on_site m') (_hop m') k).
Proof.
  intros Hx Hy Hz Inv Hr.
  destruct (supercell_fields m dx dy dz periodic Hx Hy Hz Inv)
    as (m' & E & H & _ & _ & Hl & U).
  assert (Hr' : forallb (hop_in_range (length (_on_site m'))) (_hop m') = true).
  { rewrite Hl, H; apply forallb_forall; intros h' Hh'.
    apply in_flat_map in Hh' as [c [Hc Hh']].
    apply in_flat_map in Hh' as [h [Hh Hh']].
    rewrite forallb_forall in Hr.
    apply (emit_hop_in_range _ dx dy dz periodic c h); auto. }
  exists m'; split; [exact E|]; split; [exact Hr'|].
  apply (observe_hamilton_in_range L); [|exact Hr'].
  intros U'; rewrite U in U'; discriminate U'.
Qed.

Lemma not_cut_axis (per : bool) p d :
  negb per && ((p <? 0) || (p >=? d)) = false -> per = false ->
  Z.quot p d = 0.
Proof.
  intros H ->; simpl in H.
  apply orb_false_iff in H as [H0 H1].
  apply Z.ltb_ge in H0; rewrite Z.geb_leb in H1; apply Z.leb_gt in H1.
  apply Z.quot_small; lia.
Qed.

(** X16: in a direction that is not periodic no emitted term leaves the
    supercell: its new [G] has component 0 along that direction. *)
Theorem supercell_non_periodic_axis (m : Model) dx dy dz periodic i :
  0 < dx -> 0 < dy -> 0 < dz -> class_inv m ->
  axis i periodic = false ->
  exists m',
    supercell m (dx, dy, dz) periodic None = inr m' /\
    forall h', In h' (_hop m') -> axis i (hop_G h') = 0.
Proof.
  intros Hx Hy Hz Inv Hp.
  destruct (supercell_fields m dx dy dz periodic Hx Hy Hz Inv)
    as (m' & E & H & _).
  exists m'; split; [exact E|]; rewrite H; intros h' Hh'.
  apply in_flat_map in Hh' as [c [Hc Hh']].
  apply in_flat_map in Hh' as [[[[i0 i1] G] t] [Hh Hh']].
  unfold emit_hop in Hh'.
  destruct (hop_is_cut periodic (vadd c G) (dx, dy, dz)) eqn:Cut; [contradiction|].
  destruct Hh' as [<-|[]]; cbn [hop_G].
  unfold hop_is_cut, outside_supercell in Cut.
  destruct periodic as [[px py] pz], (vadd c G) as [[f0 f1] f2].
  simpl in Cut; apply orb_false_iff in Cut as [Cut C2].
  apply orb_false_iff in Cut as [C0 C1].
  unfold supercell_new_G; simpl.
  destruct i as [|[|i]]; simpl in *; eapply not_cut_axis; eassumption.
Qed.

Lemma cells_nonpositive dx dy dz :
  dx <= 0 \/ dy <= 0 \/ dz <= 0 -> cells (dx, dy, dz) = [].
Proof.
  intros H; apply length_zero_iff_nil; rewrite length_cells.
  destruct H as [H|[H|H]].
  - replace (Z.to_nat dx) with 0%nat by lia; reflexivity.
  - replace (Z.to_nat dy) with 0%nat by lia; lia.
  - replace (Z.to_nat dz) with 0%nat by lia; lia.
Qed.


End Supercell_properties.

Section Supercell_layout.

Context {Num : Numeric}.

Lemma map_flat_map {A B D} (g : B -> D) (f : A -> list B) l :
  map g (flat_map f l) = flat_map (fun x => map g (f x)) l.
Proof.
  induction l as [|x l IH]; simpl; [reflexivity|].
  rewrite map_app, IH; reflexivity.
Qed.

Lemma flat_map_map {A B D} (f : B -> list D) (g : A -> B) l :
  flat_map f (map g l) = flat_map (fun x => f (g x)) l.
Proof. induction l as [|x l IH]; simpl; [reflexivity | rewrite IH; reflexivity]. Qed.

Lemma map_add_seq s d : forall a, map (fun k => (s + k)%nat) (seq a d) = seq (s + a) d.
Proof.
  induction d as [|d IH]; intros a; simpl; [reflexivity|].
  rewrite IH; do 2 f_equal; lia.
Qed.

Lemma flat_seq_blocks c n : forall s,
  flat_map (fun i => seq ((s + i) * c) c) (seq 0 n) = seq (s * c) (n * c).
Proof.
  induction n as [|n IH]; intros s; [reflexivity|].
  cbn [seq flat_map]; rewrite <- seq_shift, flat_map_map.
  rewrite (flat_map_ext _ (fun i => seq ((S s + i) * c) c))
    by (intros i; f_equal; lia).
  rewrite IH, Nat.add_0_r.
  replace (S n * c)%nat with (c + n * c)%nat by lia.
  rewrite seq_app; do 2 f_equal; lia.
Qed.

(** Row-major enumeration over natural numbers. *)
Lemma nat_cells_linear nx ny nz :
  flat_map (fun i =>
    flat_map (fun j => map (fun k => ((i * ny + j) * nz + k)%nat) (seq 0 nz))
             (seq 0 ny)) (seq 0 nx) =
  seq 0 (nx * ny * nz).
Proof.
  rewrite (flat_map_ext _ (fun i => seq ((0 + i) * (ny * nz)) (ny * nz))).
  - rewrite flat_seq_blocks; f_equal; lia.
  - intros i.
    rewrite (flat_map_ext _ (fun j => seq ((i * ny + j) * nz) nz)).
    + rewrite flat_seq_blocks; f_equal; lia.
    + intros j; rewrite map_add_seq; f_equal; lia.
Qed.

Lemma cells_linear dx dy dz :
  0 < dx -> 0 < dy -> 0 < dz ->
  map (lin_idx (dx, dy, dz)) (cells (dx, dy, dz)) =
  map Z.of_nat (seq 0 (Z.to_nat dx * Z.to_nat dy * Z.to_nat dz)).
Proof.
  intros Hx Hy Hz.
  rewrite <- nat_cells_linear; unfold cells, range.
  rewrite !map_flat_map, flat_map_map.
  apply flat_map_ext; intros i.
  rewrite !map_flat_map, flat_map_map.
  apply flat_map_ext; intros j.
  rewrite !map_map; apply map_ext; intros k.
  unfold lin_idx; lia.
Qed.

(** X18: the sub-cells are visited in the order of their linear index: the
    [n]-th sub-cell of the triple loop is the one [_pos_to_idx] maps to [n],
    for [n = 0 .. dim.x*dim.y*dim.z - 1]. *)
Theorem pos_to_idx_enumerates_cells dx dy dz :
  0 < dx -> 0 < dy -> 0 < dz ->
  map (fun c => _pos_to_idx c (dx, dy, dz)) (cells (dx, dy, dz)) =
  map (fun n => inr n) (range (dx * dy * dz)).
Proof.
  intros Hx Hy Hz.
  transitivity (map (fun n => @inr PyError Z n)
                    (map (lin_idx (dx, dy, dz)) (cells (dx, dy, dz)))).
  - rewrite map_map; apply map_ext_in; intros c Hc.
    unfold _pos_to_idx; rewrite (cell_in_bounds _ _ Hc).
    destruct c as [[c0 c1] c2]; reflexivity.
  - rewrite (cells_linear dx dy dz Hx Hy Hz); unfold range.
    do 3 f_equal; lia.
Qed.

Lemma nth_error_cells dx dy dz c :
  0 < dx -> 0 < dy -> 0 < dz -> In c (cells (dx, dy, dz)) ->
  nth_error (cells (dx, dy, dz)) (Z.to_nat (lin_idx (dx, dy, dz) c)) = Some c.
Proof.
  intros Hx Hy Hz Hc.
  destruct (In_nth_error _ _ Hc) as [i Hi].
  assert (Hlt : (i < length (cells (dx, dy, dz)))%nat)
    by (apply nth_error_Some; rewrite Hi; discriminate).
  pose proof (map_nth_error (lin_idx (dx, dy, dz)) i _ Hi) as E.
  rewrite (cells_linear dx dy dz Hx Hy Hz) in E.
  rewrite length_cells in Hlt.
  rewrite (map_nth_error Z.of_nat i (seq 0 _) (d := i)) in E.
  - injection E as E; rewrite <- E, Nat2Z.id; exact Hi.
  - rewrite nth_error_nth' with (d := 0%nat) by (rewrite length_seq; exact Hlt).
    rewrite seq_nth by exact Hlt; reflexivity.
Qed.

Lemma nth_error_flat_map_block {A B} (f : A -> list B) n l :
  (forall x, length (f x) = n) ->
  forall i x o, nth_error l i = Some x -> (o < n)%nat ->
  nth_error (flat_map f l) (i * n + o) = nth_error (f x) o.
Proof.
  intros Hf; induction l as [|y l IH]; intros i x o Hi Ho.
  - destruct i; discriminate Hi.
  - destruct i as [|i]; simpl in Hi |- *.
    + injection Hi as ->; apply nth_error_app1; rewrite Hf; exact Ho.
    + rewrite nth_error_app2 by (rewrite Hf; lia).
      rewrite Hf; replace (n + i * n + o - n)%nat with (i * n + o)%nat by lia.
      apply IH; assumption.
Qed.

Lemma nth_error_zip_repeat (l : list F) o x :
  nth_error l o = Some x ->
  nth_error (zip_with Fadd l (repeat F0 (length l))) o = Some (Fadd x F0).
Proof.
  revert o; induction l as [|y l IH]; intros [|o] H; simpl in *; try discriminate.
  - injection H as ->; reflexivity.
  - apply IH; exact H.
Qed.

(** X19: index layout of the supercell.  Orbital [o] of sub-cell [c] is
    the orbital the hopping terms address as [full_idx(c, o)]: at that index
    the new model holds the original on-site energy (plus the zero default
    passivation) and the original position scaled by [1/dim] and shifted by
    [c/dim]. *)
Theorem supercell_orbital_layout (m : Model) dx dy dz periodic c o x p :
  0 < dx -> 0 < dy -> 0 < dz -> class_inv m ->
  In c (cells (dx, dy, dz)) ->
  nth_error (_on_site m) o = Some x ->
  nth_error (_pos m) o = Some p ->
  exists m' idx,
    supercell m (dx, dy, dz) periodic None = inr m' /\
    full_idx (length (_on_site m)) (dx, dy, dz) c (Z.of_nat o) = inr (Z.of_nat idx) /\
    nth_error (_on_site m') idx = Some (Fadd x F0) /\
    nth_error (_pos m') idx =
      Some (vmap2 Fadd (vmap2 Fdiv (vmap F_of_Z c) (vmap F_of_Z (dx, dy, dz)))
                       (vmap2 Fdiv p (vmap F_of_Z (dx, dy, dz)))).
Proof.
  intros Hx Hy Hz Inv Hc Ho Hp.
  destruct (supercell_fields m dx dy dz periodic Hx Hy Hz Inv)
    as (m' & E & _ & S & P & _).
  set (n := length (_on_site m)) in *.
  assert (Hon : (o < n)%nat) by (apply nth_error_Some; rewrite Ho; discriminate).
  pose proof (lin_idx_bounds dx dy dz c Hc) as B.
  pose proof (nth_error_cells dx dy dz c Hx Hy Hz Hc) as Hn.
  exists m', (Z.to_nat (lin_idx (dx, dy, dz) c) * n + o)%nat.
  split; [exact E|]; split; [|split].
  - unfold full_idx, _pos_to_idx; rewrite (cell_in_bounds _ _ Hc).
    destruct c as [[c0 c1] c2]; cbn [bind ret]; unfold ret; f_equal.
    unfold lin_idx in *.
    rewrite Nat2Z.inj_add, Nat2Z.inj_mul, Z2Nat.id by lia; reflexivity.
  - rewrite S.
    rewrite (nth_error_flat_map_block _ n _
               (fun c' => length_cell_on_site _ _ _ c'
                            (fun _ _ _ => repeat_length F0 n)) _ c o Hn Hon).
    unfold cell_on_site; destruct (edges_of (dx, dy, dz) c) as [[ex ey] ez].
    apply nth_error_zip_repeat; exact Ho.
  - rewrite P; unfold supercell_pos.
    rewrite (nth_error_flat_map_block _ n _) with (x := c) by
      (try (intros c'; rewrite !length_map; exact Inv); assumption).
    pose proof (map_nth_error
                  (fun q => vmap2 Fdiv q (vmap F_of_Z (dx, dy, dz))) o _ Hp) as Hp1.
    exact (map_nth_error
             (fun q => vmap2 Fadd
                         (vmap2 Fdiv (vmap F_of_Z c) (vmap F_of_Z (dx, dy, dz))) q)
             o _ Hp1).
Qed.

Lemma emit_hop_unit_dim n periodic h :
  emit_hop n (1, 1, 1) periodic (0, 0, 0) h =
  if hop_is_cut periodic (hop_G h) (1, 1, 1) then [] else [h].
Proof.
  destruct h as [[[i0 i1] [[g0 g1] g2]] t]; unfold emit_hop; cbn [hop_G].
  change (vadd (0, 0, 0) (g0, g1, g2)) with (g0, g1, g2).
  destruct (hop_is_cut periodic (g0, g1, g2) (1, 1, 1)); [reflexivity|].
  unfold supercell_new_G, supercell_uc1_pos, lin_idx; cbn [vmap2].
  rewrite !Z.quot_1_r, !Z.mod_1_r; reflexivity.
Qed.

Lemma zip_with_repeat_zero (l : list F) :
  zip_with Fadd l (repeat F0 (length l)) = map (fun x => Fadd x F0) l.
Proof. induction l as [|x l IH]; simpl; [|rewrite IH]; reflexivity. Qed.


End Supercell_layout.

(** * Concrete runs of the further properties *)

(** X21: [supercell] does not keep Hermiticity.  The chain built with
    [add_cc=True] from one term with [G = (1, 0, 0)] has, as a 2x1x1
    supercell with every direction periodic, a Hamiltonian at
    [k = (1/4, 0, 0)] that differs from its conjugate transpose: the
    conjugate term with [G = (-1, 0, 0)] keeps [new_G = 0]. *)
Theorem supercell_breaks_hermiticity :
  exists (m' : @Model Exact.num) (H : @Matrix Exact.num),
    __init__ (Num := Exact.num) [Exact.Qc_of_Z 0] Exact.chain_hop None None true None
      = inr Exact.chain /\
    supercell Exact.chain (2, 1, 1) (true, true, true) None = inr m' /\
    observe (hamilton m' Exact.k_quarter_x) = inr H /\
    get H 0 1 = Exact.cx_of_Z 2 0 /\
    get H 1 0 = Exact.cx_of_Z 1 1 /\
    conj_transpose H <> H.
Proof.
  eexists; eexists.
  split; [reflexivity|]. split; [reflexivity|]. split; [reflexivity|].
  split; [reflexivity|]. split; [reflexivity|].
  intros E.
  apply (f_equal (fun M => Qnum (this (fst (@get Exact.num M 0 1 : Exact.Cx))))) in E.
  vm_compute in E; discriminate E.
Qed.

Lemma hamilton_repeatable_witness :
  exists H m',
    hamilton Exact.two_site Exact.k_half_x = inr (H, m') /\
    hamilton m' Exact.k_half_x = inr (H, m').
Proof.
  eexists; eexists; split; [reflexivity|].
  apply (proj1 (hamilton_repeatable Exact.two_site _ Exact.k_half_x _ eq_refl)).
Defined.


Lemma hamilton_negative_index_alias_witness :
  observe (hamilton Exact.two_site_neg Exact.k_half_x) =
  observe (hamilton Exact.two_site Exact.k_half_x).
Proof.
  apply (hamilton_negative_index_alias (Num := Exact.num)
           [Exact.Qc_of_Z 0; Exact.Qc_of_Z 0] Exact.two_site_hop_neg
           None None true None);
    reflexivity.
Defined.


Lemma size_after_init_witness :
  orbitals (size Exact.two_site) = 2%nat /\
  hop (size Exact.two_site) = 2%nat /\
  occ (size Exact.two_site) = 1.
Proof.
  apply (size_after_init (Num := Exact.num)
           [Exact.Qc_of_Z 0; Exact.Qc_of_Z 0] Exact.two_site_hop
           None None true None Exact.two_site).
  reflexivity.
Defined.


Lemma derived_models_are_fresh_witness :
  exists m', trs Exact.two_site = inr m' /\
             class_inv m' /\ _unchanged m' = false /\ _cache m' = None.
Proof.
  eexists; split; [reflexivity|].
  apply (derived_models_are_fresh Exact.two_site).
  right; left; reflexivity.
Defined.



Lemma trs_size_witness :
  exists m', trs Exact.two_site = inr m' /\
             orbitals (size m') = 4%nat /\ hop (size m') = 4%nat /\
             occ (size m') = 2.
Proof.
  apply (trs_size Exact.two_site); [reflexivity | discriminate].
Defined.



Lemma supercell_hop_count_witness :
  exists m',
    supercell Exact.two_site (2, 3, 1) (true, true, true) None = inr m' /\
    Z.of_nat (hop (size m')) <= 2 * 3 * 1 * 2 /\
    ((true, true, true) = (true, true, true) ->
     Z.of_nat (hop (size m')) = 2 * 3 * 1 * 2).
Proof.
  apply (supercell_hop_count Exact.two_site 2 3 1 (true, true, true));
    try lia; reflexivity.
Defined.

Lemma supercell_preserves_index_range_witness :
  exists m',
    supercell Exact.chain (2, 1, 1) (true, false, false) None = inr m' /\
    forallb (hop_in_range (length (_on_site m'))) (_hop m') = true /\
    observe (hamilton m' Exact.k_quarter_x) =
    inr (bloch_spec (_on_site m') (_hop m') Exact.k_quarter_x).
Proof.
  apply (supercell_preserves_index_range exact_set_order_laws
           Exact.chain 2 1 1 (true, false, false) Exact.k_quarter_x);
    try lia; reflexivity.
Defined.

Lemma supercell_non_periodic_axis_witness :
  exists m',
    supercell Exact.chain (2, 1, 1) (false, true, true) None = inr m' /\
    forall h', In h' (_hop m') -> axis 0 (hop_G h') = 0.
Proof.
  apply (supercell_non_periodic_axis Exact.chain 2 1 1 (false, true, true) 0);
    try lia; reflexivity.
Defined.


Lemma pos_to_idx_enumerates_cells_witness :
  map (fun c => _pos_to_idx (Num := Exact.num) c (2, 3, 2)) (cells (2, 3, 2)) =
  map (fun n => inr n) (range (2 * 3 * 2)).
Proof. apply (pos_to_idx_enumerates_cells (Num := Exact.num) 2 3 2); lia. Defined.

Lemma supercell_orbital_layout_witness :
  exists m' idx,
    supercell Exact.two_site_moved (2, 3, 1) (true, true, true) None = inr m' /\
    full_idx (Num := Exact.num) 2 (2, 3, 1) (1, 2, 0) (Z.of_nat 1)
      = inr (Z.of_nat idx) /\
    nth_error (_on_site m') idx = Some (@Fadd Exact.num (Exact.Qc_of_Z 0) F0) /\
    nth_error (_pos m') idx =
      Some (vmap2 (@Fadd Exact.num)
              (vmap2 (@Fdiv Exact.num) (vmap (@F_of_Z Exact.num) (1, 2, 0))
                     (vmap (@F_of_Z Exact.num) (2, 3, 1)))
              (vmap2 (@Fdiv Exact.num) Exact.unit_x
                     (vmap (@F_of_Z Exact.num) (2, 3, 1)))).
Proof.
  apply (supercell_orbital_layout Exact.two_site_moved 2 3 1 (true, true, true)
           (1, 2, 0) 1 (Exact.Qc_of_Z 0) Exact.unit_x);
    try lia; try reflexivity.
  apply in_cells; lia.
Defined.

Lemma exact_add_zero (x : Qc) : (x + Exact.Qc_of_Z 0)%Qc = x.
Proof. change (Exact.Qc_of_Z 0) with 0%Qc; ring. Qed.

